(** * coin-game: the server side game module

    A shallow embedding of the game module of the coin game server and the
    properties of its three exported operations ([addPlayer], [move],
    [state]) and of [placeCoins].

    The variants of the module that are embedded:
    - [GameJs]: [src/server/game.js], the in-memory module whose [move]
      takes only a direction;
    - [Hybrid]: [src/unnamed/part_001], the module that keeps the same
      in-memory database and mirrors its writes to a Redis store, and whose
      [move] takes the direction and the player's name;
    - [RedisOnly]: [addPlayer] and [placeCoins] of the module of
      [src/unnamed/part_000] that keeps its state in Redis alone.

    Conventions of the embedding.
    - The numbers the game computes with are integers, [Z], or [NaN]: the
      type [number].
    - Strings are [string], their length the number of their characters;
      template literals are concatenations.
    - An object used as a map is an association list of its own properties
      in insertion order, read and written through [obj_lookup] and
      [obj_assign], which know the properties every object inherits from
      [Object.prototype]: a key such as [constructor] is found in an object
      that has no such property of its own, and an assignment to
      [__proto__] stores nothing.  They are used wherever a key comes from
      a client: the direction of a move, the name of a score.  The keys
      [player:<name>] and the cell keys of the coin hash are never names of
      inherited properties; the coin hash is a [gmap].
    - The random choices of [gameutil] ([randomPoint], [permutation]) are
      inputs of the operations that make them.
    - The only Redis reply the in-memory state depends on is the reply of
      [sismember] in [addPlayer]: [addPlayer_reply] is the reply callback,
      [addPlayer] the call whose callback runs before any other request.
      The commands written to Redis are applied in the order they are
      issued. *)

From Stdlib Require Import ZArith List Ascii String Decimal DecimalString
  DecimalPos DecimalZ Permutation Lia.
From stdpp Require Import gmap strings list fin_maps sorting.

Local Open Scope Z_scope.

(** ** JavaScript primitives *)

Module JS.

(** [`${n}`] and [Number.prototype.toString] for an integer [n]. *)
Definition number_toString (n : Z) : string :=
  NilZero.string_of_int (Z.to_int n).

(** Unary [+] on a string, for the strings made of an optional minus sign
    and decimal digits.  [None] stands for every other string. *)
Definition to_number (s : string) : option Z :=
  Z.of_int <$> NilZero.int_of_string s.

(** A number of the game: an integer, or [NaN]. *)
Inductive number : Type :=
  | Num (n : Z)
  | NaN.

(** [`${n}`] for a number. *)
Definition number_show (n : number) : string :=
  match n with
  | Num n => number_toString n
  | NaN => "NaN"
  end.

(** Unary [+] on a string: the integer of a decimal numeral, and [NaN] for
    the string [NaN], which is no numeral.  [None] stands for every other
    string: what ToNumber yields there is outside the model. *)
Definition unary_plus (s : string) : option number :=
  if String.eqb s "NaN" then Some NaN else Num <$> to_number s.

(** [a + b] for a number [a] and [b] a number or [undefined], which is
    [None]: [undefined] becomes [NaN], and a sum with [NaN] is [NaN]. *)
Definition number_add (a : number) (b : option Z) : number :=
  match a, b with
  | Num a, Some b => Num (a + b)
  | _, _ => NaN
  end.

(** [s.split(',')]: the pieces of [s] between its commas. *)
Fixpoint split_comma (s : string) : list string :=
  match s with
  | EmptyString => [EmptyString]
  | String c s' =>
      if Ascii.eqb c ","%char then EmptyString :: split_comma s'
      else
        match split_comma s' with
        | piece :: pieces => String c piece :: pieces
        | [] => [String c EmptyString]
        end
  end.

(** [key.startsWith(p)] and [key.substring(n)]. *)
Definition startsWith (p s : string) : bool := String.prefix p s.

Definition substring_from (n : nat) (s : string) : string :=
  String.substring n (String.length s - n) s.

(** Truthiness of a number: [if (value)]. *)
Definition truthy (v : Z) : bool := negb (v =? 0).

(** [array.forEach((x, i) => ...)] as a state transformer: [i] is the index
    of the head of [l]. *)
Fixpoint forEach {A S : Type} (f : A → nat → S → S) (l : list A) (i : nat)
    (s : S) : S :=
  match l with
  | [] => s
  | x :: l' => forEach f l' (Datatypes.S i) (f x i s)
  end.

(** The names of the properties of [Object.prototype], which every object
    written as a literal inherits.  All of them hold functions, except
    [__proto__], an accessor: its getter returns the prototype and its
    setter ignores a value that is neither an object nor [null]. *)
Definition Object_prototype : list string :=
  ["constructor"; "hasOwnProperty"; "isPrototypeOf"; "propertyIsEnumerable";
   "toLocaleString"; "toString"; "valueOf"; "__proto__";
   "__defineGetter__"; "__defineSetter__"; "__lookupGetter__";
   "__lookupSetter__"].

(** What reading [o[k]] finds: the value of an own property, a member of
    [Object.prototype], or [undefined]. *)
Inductive property (V : Type) : Type :=
  | Own (v : V)
  | Inherited
  | Undefined.
Global Arguments Own {V} v.
Global Arguments Inherited {V}.
Global Arguments Undefined {V}.

Global Instance property_eq_dec {V : Type} `{EqDecision V} :
  EqDecision (property V).
Proof. solve_decision. Defined.

(** Objects whose enumeration order is observable: own properties in
    insertion order. *)
Section obj.
Context {V : Type}.

Definition obj := list (string * V).

(** The own property [k] of [o]. *)
Fixpoint obj_get (k : string) (o : obj) : option V :=
  match o with
  | [] => None
  | (k', v) :: o' => if String.eqb k k' then Some v else obj_get k o'
  end.

(** [o[k] = v] where [k] is not [__proto__]: the property becomes an own
    property, and an existing one keeps its place. *)
Fixpoint obj_set (k : string) (v : V) (o : obj) : obj :=
  match o with
  | [] => [(k, v)]
  | (k', v') :: o' =>
      if String.eqb k k' then (k', v) :: o' else (k', v') :: obj_set k v o'
  end.

(** [o[k]] for any key. *)
Definition obj_lookup (k : string) (o : obj) : property V :=
  match obj_get k o with
  | Some v => Own v
  | None => if bool_decide (k ∈ Object_prototype) then Inherited else Undefined
  end.

(** [o[k] = v] for any key and a number or a string [v]: the setter of
    [__proto__] ignores such a value and nothing is stored. *)
Definition obj_assign (k : string) (v : V) (o : obj) : obj :=
  if String.eqb k "__proto__" then o else obj_set k v o.

End obj.
Global Arguments obj : clear implicits.

(** A property key that is an array index: a canonical decimal numeral
    below [2^32 - 1]. *)
Definition array_index (k : string) : option N :=
  match NilZero.uint_of_string k with
  | Some d =>
      if Decimal.uint_beq (unorm d) d then
        if (N.of_uint d <? 4294967295)%N then Some (N.of_uint d) else None
      else None
  | None => None
  end.

Definition index_le {V : Type} (p q : string * V) : Prop :=
  match array_index p.1, array_index q.1 with
  | Some m, Some n => (m ≤ n)%N
  | _, _ => True
  end.

Global Instance index_le_dec {V : Type} : RelDecision (@index_le V).
Proof.
  intros p q. unfold index_le.
  destruct (array_index p.1), (array_index q.1); apply _.
Defined.

(** [Object.entries(o)]: the array-index keys in ascending numeric order,
    then the other keys in insertion order. *)
Definition entries {V : Type} (o : obj V) : list (string * V) :=
  merge_sort index_le (filter (λ p, is_Some (array_index p.1)) o)
  ++ filter (λ p, ¬ is_Some (array_index p.1)) o.

(** How a call completes: it returns, or it raises a [TypeError]; either
    way [a] is what the call has made of the state by then.  [Unmodelled]
    marks a run that reaches a computation outside the embedding (see
    [unary_plus] and [add_assign]). *)
Inductive completion (A : Type) : Type :=
  | Normal (a : A)
  | TypeError (a : A)
  | Unmodelled.
Global Arguments Normal {A} a.
Global Arguments TypeError {A} a.
Global Arguments Unmodelled {A}.

(** [Array.prototype.sort(comparefn)] as V8 implements it since Node 11
    (array-sort.tq), for arrays shorter than 64 elements, where the minimal
    run is the whole array: the leading run is counted (and reversed when
    strictly descending), then the remaining elements are placed by binary
    insertion.  ECMAScript leaves the resulting order to the implementation
    when [comparefn] is not a consistent comparator. *)
Section sort.
Context {A : Type} (comparefn : A → A → Z).

(** The run continues while the order of (current, previous) agrees with
    the direction of the run. *)
Fixpoint run_extend (descending : bool) (previous : A) (l : list A)
    : list A * list A :=
  match l with
  | [] => ([], [])
  | current :: l' =>
      let order := comparefn current previous in
      if (if descending then 0 <=? order else order <? 0) then ([], l)
      else
        let '(run, rest) := run_extend descending current l' in
        (current :: run, rest)
  end.

Definition CountAndMakeRun (l : list A) : list A * list A :=
  match l with
  | elementHigh :: elementLow :: l' =>
      let descending := comparefn elementLow elementHigh <? 0 in
      let '(run, rest) := run_extend descending elementLow l' in
      let run := elementHigh :: elementLow :: run in
      (if descending then reverse run else run, rest)
  | _ => (l, [])
  end.

Fixpoint binary_search (fuel : nat) (pivot : A) (a : list A)
    (left right : nat) : nat :=
  match fuel with
  | O => left
  | Datatypes.S fuel' =>
      if (left <? right)%nat then
        let mid := (left + (right - left) / 2)%nat in
        match a !! mid with
        | Some x =>
            if comparefn pivot x <? 0
            then binary_search fuel' pivot a left mid
            else binary_search fuel' pivot a (mid + 1)%nat right
        | None => left
        end
      else left
  end.

Definition BinaryInsertionSort (sorted rest : list A) : list A :=
  fold_left
    (λ a pivot,
       let left := binary_search (length a) pivot a 0 (length a) in
       take left a ++ pivot :: drop left a)
    rest sorted.

Definition array_sort (l : list A) : option (list A) :=
  if (length l <? 64)%nat then
    let '(run, rest) := CountAndMakeRun l in
    Some (BinaryInsertionSort run rest)
  else None.
End sort.

(** The number a boolean becomes when a comparator returns it. *)
Definition bool_to_number (b : bool) : Z := if b then 1 else 0.

End JS.

Import JS.

(** ** gameutil *)

Module GameUtil.

(** Modelled from the spec: [gameutil.clamp] is not among the sources; the
    spec has it clamp a value into [[low, high]], a value inside the range
    being left as it is. *)
Definition clamp (value low high : Z) : Z :=
  if value <? low then low else if high <? value then high else value.

(** Modelled from the spec: the spec does not say what [clamp] makes of
    [NaN].  No comparison orders [NaN], and [Math.min] and [Math.max]
    return it, so a clamp written with either returns [NaN]; that is what
    is taken here. *)
Definition clamp_number (value : number) (low high : Z) : number :=
  match value with
  | Num value => Num (clamp value low high)
  | NaN => NaN
  end.

(** Modelled from the spec: [gameutil.randomPoint(w, h)] is not among the
    sources; the spec has it pick a point of the [w] by [h] board.  The
    point picked is an input of [addPlayer]; this is what is known of it. *)
Definition randomPoint_spec (w h : Z) (pt : Z * Z) : Prop :=
  0 ≤ pt.1 < w ∧ 0 ≤ pt.2 < h.

(** Modelled from the spec: [gameutil.permutation(n)] is not among the
    sources; the spec has it return a random permutation of the [n] cell
    indices.  The array returned is an input of [placeCoins]; this is what
    is known of it. *)
Definition permutation_spec (n : nat) (perm : list nat) : Prop :=
  perm ≡ₚ seq 0 n.

End GameUtil.

Import GameUtil.

(** ** The database and the constants shared by the variants *)

Definition WIDTH : Z := 64.
Definition HEIGHT : Z := 64.
Definition MAX_PLAYER_NAME_LENGTH : nat := 32.
Definition NUM_COINS : nat := 100.

(** The in-memory database: the fixed properties [scores], [usednames] and
    [coins], and [players] for the properties [player:<name>] of the same
    object, whose value is the string [<row>,<col>].  A key [player:<name>]
    is no property of [Object.prototype]: [players] is read and written
    with [obj_get] and [obj_set]. *)
Record Database : Type := mkDatabase {
  scores : obj Z;
  usednames : gset string;
  coins : gmap string Z;
  players : obj string
}.

Definition empty_database : Database :=
  {| scores := []; usednames := ∅; coins := ∅; players := [] |}.

(** The Redis keys the variants with a Redis client use: the set
    [usednames], the strings [player:<name>], the sorted set [scores] and
    the hash [coins].  Expiry times are not modelled. *)
Record Redis : Type := mkRedis {
  r_usednames : gset string;
  r_strings : gmap string string;
  r_scores : gmap string Z;
  r_coins : gmap string Z
}.

(** The reply of [redis.sismember('usednames', name)]. *)
Definition sismember (name : string) (r : Redis) : Z :=
  if decide (name ∈ r_usednames r) then 1 else 0.

(** What the calling socket is sent on a [name] message. *)
Inductive signal : Type := Welcome | Badname (name : string).

(** What [state] hands to the clients. *)
Record View : Type := mkView {
  v_positions : list (string * string);
  v_scores : list (string * Z);
  v_coins : gmap string Z
}.

(** [`${a},${b}`], also what [[a, b].toString()] gives. *)
Definition cell_key (a b : Z) : string :=
  number_toString a +:+ "," +:+ number_toString b.

(** [`${x},${y}`] for numbers that may be [NaN]. *)
Definition point_key (x y : number) : string :=
  number_show x +:+ "," +:+ number_show y.

(** [const [x, y] = s.split(',')] followed by [+x] and [+y]. *)
Definition read_numbers (s : string) : option (number * number) :=
  match split_comma s with
  | x :: y :: _ =>
      match unary_plus x, unary_plus y with
      | Some x, Some y => Some (x, y)
      | _, _ => None
      end
  | _ => None
  end.

(** The point a string [<row>,<col>] of two integers names: [read_numbers]
    when neither number is [NaN]. *)
Definition read_point (s : string) : option (Z * Z) :=
  match split_comma s with
  | x :: y :: _ =>
      match to_number x, to_number y with
      | Some x, Some y => Some (x, y)
      | _, _ => None
      end
  | _ => None
  end.

(** [{ U: [0, -1], R: [1, 0], D: [0, 1], L: [-1, 0] }[direction]]: the
    array of an own key, a member of [Object.prototype] for a key such as
    [constructor], [undefined] for any other string. *)
Definition delta_of (direction : string) : property (Z * Z) :=
  obj_lookup direction
    [("U", (0, -1)); ("R", (1, 0)); ("D", (0, 1)); ("L", (-1, 0))].

(** [delta[0]] and [delta[1]]: the elements of the array; a member of
    [Object.prototype] has no property [0] or [1], and reading one gives
    [undefined], which is [None]. *)
Definition delta_x (delta : property (Z * Z)) : option Z :=
  match delta with
  | Own d => Some d.1
  | _ => None
  end.

Definition delta_y (delta : property (Z * Z)) : option Z :=
  match delta with
  | Own d => Some d.2
  | _ => None
  end.

(** [scores[name] += value].  With no own property [name], what is read
    is inherited or [undefined]: under the name [__proto__] the sum is a
    string, which the setter ignores, and the scores are left as they are;
    under any other name the sum, a string or [NaN], would be stored as
    the score, which is outside the model ([None]). *)
Definition add_assign (name : string) (value : Z) (scores : obj Z)
    : option (obj Z) :=
  match obj_lookup name scores with
  | Own score => Some (obj_assign name (score + value) scores)
  | Inherited => if String.eqb name "__proto__" then Some scores else None
  | Undefined => None
  end.

(** [(i < 50) ? 1 : (i < 75) ? 2 : (i < 95) ? 5 : 10] *)
Definition coinValue (i : nat) : Z :=
  if (i <? 50)%nat then 1
  else if (i <? 75)%nat then 2
  else if (i <? 95)%nat then 5
  else 10.

(** [`${Math.floor(position / WIDTH)},${Math.floor(position % WIDTH)}`]:
    [/] is the real quotient, floored; [%] is the truncated remainder. *)
Definition coin_index (position : nat) : string :=
  cell_key (Z.of_nat position / WIDTH) (Z.rem (Z.of_nat position) WIDTH).

(** The comparator [([, v1], [, v2]) => v1 < v2] of [state]. *)
Definition score_comparefn (p q : string * Z) : Z :=
  bool_to_number (p.2 <? q.2).

(** ** [src/server/game.js] *)

Module GameJs.

(** [pt] is the point [randomPoint] returns. *)
Definition addPlayer (pt : Z * Z) (name : string) (db : Database)
    : bool * Database :=
  if decide (name ∈ usednames db) then (false, db)
  else
    (true,
     {| usednames := usednames db ∪ {[name]};
        players := obj_set ("player:" +:+ name) (cell_key pt.1 pt.2) (players db);
        scores := obj_assign name 0 (scores db);
        coins := coins db |}).

(** [perm] is the array [permutationArray] returns. *)
Definition placeCoins (perm : list nat) (db : Database) : Database :=
  {| coins :=
       forEach (λ position i c, <[coin_index position := coinValue i]> c)
         (take 100 perm) 0%nat (coins db);
     scores := scores db; usednames := usednames db; players := players db |}.

(** The properties [scores], [usednames] and [coins] of the database do not
    start with [player:], so the filter runs over the player keys. *)
Definition state (db : Database) : completion View :=
  let positions :=
    (λ kv : string * string, (substring_from 7 kv.1, kv.2))
      <$> filter (λ kv, startsWith "player:" kv.1 = true) (entries (players db)) in
  match array_sort score_comparefn (entries (scores db)) with
  | Some scores =>
      Normal {| v_positions := positions; v_scores := scores; v_coins := coins db |}
  | None => Unmodelled
  end.

(** [perm] is the array [permutationArray] returns if [placeCoins] is
    called.  [if (delta)] lets through the array of a direction and the
    member of [Object.prototype] a key such as [constructor] finds.
    Reading [database[key]] of a missing key gives [undefined], whose
    [split] raises the [TypeError]. *)
Definition move (perm : list nat) (direction : string) (db : Database)
    : completion Database :=
  match delta_of direction with
  | Undefined => Normal db
  | delta =>
      let key := "player:alice" in
      match obj_get key (players db) with
      | None => TypeError db
      | Some position =>
          match read_numbers position with
          | None => Unmodelled
          | Some (x, y) =>
              let newX :=
                clamp_number (number_add x (delta_x delta)) 0 (WIDTH - 1) in
              let newY :=
                clamp_number (number_add y (delta_y delta)) 0 (HEIGHT - 1) in
              let collected :=
                match coins db !! point_key newX newY with
                | Some value =>
                    if truthy value then
                      match add_assign (substring_from 7 key) value (scores db) with
                      | Some scores1 =>
                          Some (scores1, delete (point_key newX newY) (coins db))
                      | None => None
                      end
                    else Some (scores db, coins db)
                | None => Some (scores db, coins db)
                end in
              match collected with
              | None => Unmodelled
              | Some (scores1, coins1) =>
                  let db1 :=
                    {| scores := scores1; usednames := usednames db;
                       coins := coins1;
                       players := obj_set key (point_key newX newY) (players db) |} in
                  if (size (coins db1) =? 0)%nat then Normal (placeCoins perm db1)
                  else Normal db1
              end
          end
      end
  end.

(** The module, once loaded: [placeCoins(); addPlayer('alice');
    addPlayer('bob')]. *)
Definition loaded (perm : list nat) (pa pb : Z * Z) : Database :=
  (addPlayer pb "bob" (addPlayer pa "alice" (placeCoins perm empty_database)).2).2.

(** The databases the running server goes through: each request is a call
    of an exported operation with the random choices [gameutil] makes and,
    for [move], whatever direction the client chooses. *)
Inductive reachable : Database → Prop :=
  | reach_loaded perm pa pb :
      permutation_spec (Z.to_nat (WIDTH * HEIGHT)) perm →
      randomPoint_spec WIDTH HEIGHT pa → randomPoint_spec WIDTH HEIGHT pb →
      reachable (loaded perm pa pb)
  | reach_addPlayer db pt name :
      reachable db → randomPoint_spec WIDTH HEIGHT pt →
      reachable (addPlayer pt name db).2
  | reach_move db perm direction db' :
      reachable db → permutation_spec (Z.to_nat (WIDTH * HEIGHT)) perm →
      move perm direction db = Normal db' →
      reachable db'.

End GameJs.

(** ** [src/unnamed/part_001]: the database mirrored to Redis *)

Module Hybrid.

(** The database of the module and the Redis store it writes to. *)
Record State : Type := mkState {
  database : Database;
  redis : Redis
}.

(** The reply callback of [sismember] in [addPlayer], on the reply [res].
    [pt] and [pt'] are the two points [randomPoint] returns, the first for
    the database and the second for Redis. *)
Definition addPlayer_reply (res : Z) (pt pt' : Z * Z) (name : string)
    (s : State) : signal * State :=
  if res =? 1 then (Badname name, s)
  else
    let db := database s in
    let r := redis s in
    (Welcome,
     {| database :=
          {| usednames := usednames db ∪ {[name]};
             players :=
               obj_set ("player:" +:+ name) (cell_key pt.1 pt.2) (players db);
             scores := obj_assign name 0 (scores db);
             coins := coins db |};
        redis :=
          {| r_usednames := r_usednames r ∪ {[name]};
             r_strings := <["player:" +:+ name := cell_key pt'.1 pt'.2]> (r_strings r);
             r_scores := <[name := 0]> (r_scores r);
             r_coins := r_coins r |} |}).

(** The call, with the reply callback run on the reply Redis gives to this
    call before any other request is handled. *)
Definition addPlayer (pt pt' : Z * Z) (name : string) (s : State)
    : signal * State :=
  if negb (String.length name =? 0)%nat
     || (String.length name <=? MAX_PLAYER_NAME_LENGTH)%nat then
    addPlayer_reply (sismember name (redis s)) pt pt' name s
  else (Badname name, s).

(** [redis.del('coins')], then for each position an [hset] and a write to
    the coin hash of the database. *)
Definition placeCoins (perm : list nat) (s : State) : State :=
  let db := database s in
  let r := redis s in
  let r := {| r_coins := ∅; r_usednames := r_usednames r;
              r_strings := r_strings r; r_scores := r_scores r |} in
  forEach
    (λ position i s,
       let coinValue := coinValue i in
       let index := coin_index position in
       {| redis :=
            {| r_coins := <[index := coinValue]> (r_coins (redis s));
               r_usednames := r_usednames (redis s);
               r_strings := r_strings (redis s);
               r_scores := r_scores (redis s) |};
          database :=
            {| coins := <[index := coinValue]> (coins (database s));
               scores := scores (database s);
               usednames := usednames (database s);
               players := players (database s) |} |})
    (take NUM_COINS perm) 0%nat {| database := db; redis := r |}.

(** [state] reads the database only. *)
Definition state (s : State) : completion View :=
  let db := database s in
  let positions :=
    (λ kv : string * string, (substring_from 7 kv.1, kv.2))
      <$> filter (λ kv, startsWith "player:" kv.1 = true) (entries (players db)) in
  match array_sort score_comparefn (entries (scores db)) with
  | Some scores =>
      Normal {| v_positions := positions; v_scores := scores; v_coins := coins db |}
  | None => Unmodelled
  end.

(** As in [game.js], with the key and the score of [name]. *)
Definition move (perm : list nat) (direction name : string) (s : State)
    : completion State :=
  match delta_of direction with
  | Undefined => Normal s
  | delta =>
      let db := database s in
      let playerKey := "player:" +:+ name in
      match obj_get playerKey (players db) with
      | None => TypeError s
      | Some position =>
          match read_numbers position with
          | None => Unmodelled
          | Some (x, y) =>
              let newX :=
                clamp_number (number_add x (delta_x delta)) 0 (WIDTH - 1) in
              let newY :=
                clamp_number (number_add y (delta_y delta)) 0 (HEIGHT - 1) in
              let collected :=
                match coins db !! point_key newX newY with
                | Some value =>
                    if truthy value then
                      match add_assign name value (scores db) with
                      | Some scores1 =>
                          Some (scores1, delete (point_key newX newY) (coins db))
                      | None => None
                      end
                    else Some (scores db, coins db)
                | None => Some (scores db, coins db)
                end in
              match collected with
              | None => Unmodelled
              | Some (scores1, coins1) =>
                  let s1 :=
                    {| database :=
                         {| scores := scores1; usednames := usednames db;
                            coins := coins1;
                            players :=
                              obj_set playerKey (point_key newX newY) (players db) |};
                       redis := redis s |} in
                  if (size (coins (database s1)) =? 0)%nat
                  then Normal (placeCoins perm s1)
                  else Normal s1
              end
          end
      end
  end.

(** The module, once loaded: [placeCoins()] on the empty database; the
    Redis store is whatever the server finds. *)
Definition loaded (perm : list nat) (r : Redis) : State :=
  placeCoins perm {| database := empty_database; redis := r |}.

(** The states the running server goes through.  A socket sends [move]
    requests, with whatever direction the client chooses, under a name only
    once [addPlayer] has welcomed that name, which is when the name enters
    [usednames] of the database.  The calls of [addPlayer] are taken with
    their reply: when the replies to two calls under one free name
    overlap, the second callback stores again, at its own points, what the
    first one stored, which is the state a single call reaches. *)
Inductive reachable : State → Prop :=
  | reach_loaded perm r :
      permutation_spec (Z.to_nat (WIDTH * HEIGHT)) perm →
      reachable (loaded perm r)
  | reach_addPlayer s pt pt' name :
      reachable s →
      randomPoint_spec WIDTH HEIGHT pt → randomPoint_spec WIDTH HEIGHT pt' →
      reachable (addPlayer pt pt' name s).2
  | reach_move s perm direction name s' :
      reachable s → name ∈ usednames (database s) →
      permutation_spec (Z.to_nat (WIDTH * HEIGHT)) perm →
      move perm direction name s = Normal s' →
      reachable s'.

End Hybrid.

(** ** [src/unnamed/part_000]: the variant on Redis alone *)

Module RedisOnly.

(** The reply callback of [sismember] in [addPlayer], on the reply [res].
    The [callback] the server passes sends [welcome]. *)
Definition addPlayer_reply (res : Z) (pt : Z * Z) (name : string)
    (r : Redis) : signal * Redis :=
  if res =? 1 then (Badname name, r)
  else
    (Welcome,
     {| r_usednames := r_usednames r ∪ {[name]};
        r_strings := <["player:" +:+ name := cell_key pt.1 pt.2]> (r_strings r);
        r_scores := <[name := 0]> (r_scores r);
        r_coins := r_coins r |}).

(** The call, with the reply callback run on the reply Redis gives to this
    call before any other request is handled. *)
Definition addPlayer (pt : Z * Z) (name : string) (r : Redis)
    : signal * Redis :=
  if negb (String.length name =? 0)%nat
     || (String.length name <=? MAX_PLAYER_NAME_LENGTH)%nat then
    addPlayer_reply (sismember name r) pt name r
  else (Badname name, r).

(** [redis.del('coins')], then an [hset] for each position.  Redis holds
    the decimal string of each number; the store is modelled with the
    numbers themselves. *)
Definition placeCoins (perm : list nat) (r : Redis) : Redis :=
  forEach
    (λ position i r,
       let coinValue := coinValue i in
       let index := coin_index position in
       {| r_coins := <[index := coinValue]> (r_coins r);
          r_usednames := r_usednames r;
          r_strings := r_strings r;
          r_scores := r_scores r |})
    (take NUM_COINS perm) 0%nat
    {| r_coins := ∅; r_usednames := r_usednames r;
       r_strings := r_strings r; r_scores := r_scores r |}.

End RedisOnly.

(** ** The vocabulary of the properties *)

(** No character of [s] is a comma. *)
Fixpoint no_comma (s : string) : Prop :=
  match s with
  | EmptyString => True
  | String c s' => c ≠ ","%char ∧ no_comma s'
  end.

(** What one round of the [forEach] of [placeCoins] does to a coin hash. *)
Definition place (position : nat) (i : nat) (c : gmap string Z)
    : gmap string Z :=
  <[coin_index position := coinValue i]> c.

(** The entries a run of [place] over [l] writes, [i] being the rank of
    the head of [l]. *)
Definition placed (i : nat) (l : list nat) : list (string * Z) :=
  imap (λ j position, (coin_index position, coinValue (i + j))) l.

(** The coin hash [placeCoins] builds on an empty field. *)
Definition batch (perm : list nat) : gmap string Z :=
  forEach place (take NUM_COINS perm) 0%nat ∅.

(** A batch as the spec describes it, drawn from [perm]: a hundred
    coins, fifty worth 1, twenty-five worth 2, twenty worth 5 and five
    worth 10, the coin of rank [i] lying on the cell of the [i]-th entry
    of [perm]. *)
Definition fresh_batch (perm : list nat) (c : gmap string Z) : Prop :=
  size c = 100%nat ∧
  (map_to_list c).*2
    ≡ₚ replicate 50 1 ++ replicate 25 2 ++ replicate 20 5 ++ replicate 5 10 ∧
  ∀ i position, perm !! i = Some position →
    ((i ≤ 49)%nat → c !! coin_index position = Some 1) ∧
    ((50 ≤ i ≤ 74)%nat → c !! coin_index position = Some 2) ∧
    ((75 ≤ i ≤ 94)%nat → c !! coin_index position = Some 5) ∧
    ((95 ≤ i ≤ 99)%nat → c !! coin_index position = Some 10).

(** Every coin lies on a cell of the board, under the key of that cell,
    and is worth 1, 2, 5 or 10. *)
Definition coins_on_board (c : gmap string Z) : Prop :=
  ∀ k v, c !! k = Some v →
    (∃ a b, k = cell_key a b ∧ 0 ≤ a < WIDTH ∧ 0 ≤ b < HEIGHT) ∧
    v ∈ [1; 2; 5; 10].

(** A key names at most one cell, and the keys of the coins name cells of
    the board: two coins on the same cell would be two keys that read as
    the same point. *)
Definition one_coin_per_cell (c : gmap string Z) : Prop :=
  (∀ k, is_Some (c !! k) →
     ∃ a b, read_point k = Some (a, b) ∧ 0 ≤ a ≤ 63 ∧ 0 ≤ b ≤ 63) ∧
  (∀ k1 k2, is_Some (c !! k1) → is_Some (c !! k2) →
     read_point k1 = read_point k2 → k1 = k2).

(** A stored position is the key of a cell of the board. *)
Definition on_board (position : string) : Prop :=
  ∃ x y, position = cell_key x y ∧ 0 ≤ x ≤ WIDTH - 1 ∧ 0 ≤ y ≤ HEIGHT - 1.

(** Every stored position of the database is on the board. *)
Definition positions_on_board (db : Database) : Prop :=
  ∀ key position, obj_get key (players db) = Some position → on_board position.

(** What a stored position can be: the key of a cell of the board, or the
    string a move leaves when its direction names a member of
    [Object.prototype]. *)
Definition cell_or_NaN (position : string) : Prop :=
  on_board position ∨ position = "NaN,NaN".

(** The string [move] stores for a player who stood on [position]. *)
Definition target (delta : property (Z * Z)) (position : string)
    : option string :=
  match read_numbers position with
  | Some (x, y) =>
      Some (point_key
              (clamp_number (number_add x (delta_x delta)) 0 (WIDTH - 1))
              (clamp_number (number_add y (delta_y delta)) 0 (HEIGHT - 1)))
  | None => None
  end.

(** The scores once [value] has been added to the score [name] has; a name
    without a score of its own is credited nothing. *)
Definition credited (name : string) (value : Z) (scores : obj Z) : obj Z :=
  match obj_get name scores with
  | Some score => obj_set name (score + value) scores
  | None => scores
  end.

(** The players of the database are the used names: each has a position,
    a cell of the board or [NaN,NaN], and, unless the name is [__proto__],
    a score; no other player key is stored, and no score under the name
    [__proto__]. *)
Record players_inv (db : Database) : Prop := {
  inv_player : ∀ name, name ∈ usednames db →
    is_Some (obj_get ("player:" +:+ name) (players db));
  inv_score : ∀ name, name ∈ usednames db → name ≠ "__proto__" →
    is_Some (obj_get name (scores db));
  inv_proto : obj_get "__proto__" (scores db) = None;
  inv_position : ∀ key position,
    obj_get key (players db) = Some position →
    cell_or_NaN position ∧ ∃ name, key = "player:" +:+ name ∧ name ∈ usednames db
}.

(** What every database the server reaches satisfies. *)
Record db_inv (db : Database) : Prop := {
  inv_players : players_inv db;
  inv_coins : coins_on_board (coins db);
  inv_nonempty : coins db ≠ ∅
}.

(** The database after a registration. *)
Definition registered (pt : Z * Z) (name : string) (db : Database)
    : Database :=
  {| usednames := usednames db ∪ {[name]};
     players := obj_set ("player:" +:+ name) (cell_key pt.1 pt.2) (players db);
     scores := obj_assign name 0 (scores db);
     coins := coins db |}.

(** The state [move] reaches before it looks whether the field is empty:
    the coin of [cell], if any, is gone and credited to [name], who now
    stands on [cell]. *)
Definition landed (name cell : string) (s : Hybrid.State) : Hybrid.State :=
  let db := Hybrid.database s in
  {| Hybrid.database :=
       {| scores :=
            match coins db !! cell with
            | Some value => credited name value (scores db)
            | None => scores db
            end;
          usednames := usednames db;
          coins := delete cell (coins db);
          players := obj_set ("player:" +:+ name) cell (players db) |};
     Hybrid.redis := Hybrid.redis s |}.

(** The moves [directions], one after the other, of the player [name]. *)
Fixpoint moves (perm : list nat) (name : string) (directions : list string)
    (s : Hybrid.State) : completion Hybrid.State :=
  match directions with
  | [] => Normal s
  | direction :: directions' =>
      match Hybrid.move perm direction name s with
      | Normal s' => moves perm name directions' s'
      | TypeError s' => TypeError s'
      | Unmodelled => Unmodelled
      end
  end.

(** The call returns. *)
Definition returns {A : Type} (c : completion A) : bool :=
  match c with Normal _ => true | _ => false end.

(** The scores [state] shows, when it returns. *)
Definition shown_scores (c : completion View) : option (list (string * Z)) :=
  match c with
  | Normal view => Some (v_scores view)
  | _ => None
  end.

(** ** Concrete runs *)

(** A permutation [permutation] may return, an empty Redis store, and the
    server after [alice] and [bob] have registered, [bob] standing next to
    the coin of the cell [1,0]. *)
Definition demo_perm : list nat := seq 0 4096.

Definition demo_redis : Redis := mkRedis ∅ ∅ ∅ ∅.

Definition demo_state : Hybrid.State :=
  (Hybrid.addPlayer (2, 0) (7, 7) "bob"
     (Hybrid.addPlayer (10, 10) (3, 3) "alice"
        (Hybrid.loaded demo_perm demo_redis)).2).2.

(** [bob] walks over the cells of the batch until a single coin is left,
    on the cell [0,63] next to him. *)
Definition demo_walk : list string :=
  ["L"] ++ replicate 35 "D" ++ ["L"] ++ replicate 35 "U" ++ replicate 62 "D".

(** The state after that walk. *)
Definition demo_last_coin : Hybrid.State :=
  match moves demo_perm "bob" demo_walk demo_state with
  | Normal s => s
  | _ => demo_state
  end.

(** The state in which [bob] has collected the coin of the cell [1,0]. *)
Definition demo_scored : Hybrid.State :=
  match Hybrid.move demo_perm "L" "bob" demo_state with
  | Normal s => s
  | _ => demo_state
  end.

(** [game.js] once loaded, and after a move to the left. *)
Definition demo_js : Database := GameJs.loaded demo_perm (10, 10) (2, 0).

Definition demo_js_moved : Database :=
  match GameJs.move demo_perm "L" demo_js with
  | Normal db => db
  | _ => demo_js
  end.

(** [game.js] loaded with [alice] on the cell [2,0], and after [alice]
    has walked over the cells of the batch until a single coin is left. *)
Definition demo_js_start : Database := GameJs.loaded demo_perm (2, 0) (10, 10).

Fixpoint js_moves (perm : list nat) (directions : list string)
    (db : Database) : completion Database :=
  match directions with
  | [] => Normal db
  | direction :: directions' =>
      match GameJs.move perm direction db with
      | Normal db' => js_moves perm directions' db'
      | TypeError db' => TypeError db'
      | Unmodelled => Unmodelled
      end
  end.

Definition demo_js_last_coin : Database :=
  match js_moves demo_perm demo_walk demo_js_start with
  | Normal db => db
  | _ => demo_js_start
  end.

(** The server after a client has registered under the name [__proto__]
    and stands next to the coin of the cell [1,0], and after that player
    has stepped on the coin. *)
Definition demo_proto : Hybrid.State :=
  (Hybrid.addPlayer (2, 0) (7, 7) "__proto__"
     (Hybrid.loaded demo_perm demo_redis)).2.

Definition demo_proto_moved : Hybrid.State :=
  match Hybrid.move demo_perm "L" "__proto__" demo_proto with
  | Normal s => s
  | _ => demo_proto
  end.

(** The state after [bob] has asked for a move in the direction
    [constructor]. *)
Definition demo_lost : Hybrid.State :=
  match Hybrid.move demo_perm "constructor" "bob" demo_state with
  | Normal s => s
  | _ => demo_state
  end.

(** ** The vocabulary of the further properties *)

(** The sum of a list of numbers. *)
Definition zsum (l : list Z) : Z := foldr Z.add 0 l.

(** The scores of all the players, added up. *)
Definition scores_total (o : obj Z) : Z := zsum o.*2.

(** The values of all the coins of a field, added up. *)
Definition field_value (c : gmap string Z) : Z := zsum (map_to_list c).*2.

(** The books of the database: every key is stored once, the scores are
    those of the used names, the field holds at most a batch, and the
    scores, the coins on the field and the coins collected under the name
    [__proto__], which no score records, add up to the batches placed so
    far, 250 each. *)
Record ledger_inv (db : Database) : Prop := {
  led_players_nodup : NoDup (players db).*1;
  led_scores_nodup : NoDup (scores db).*1;
  led_scores_used : ∀ name, name ∈ (scores db).*1 → name ∈ usednames db;
  led_size : (size (coins db) ≤ 100)%nat;
  led_total : ∃ batches lost : Z,
    1 ≤ batches ∧ 0 ≤ lost ∧
    ("__proto__" ∉ usednames db → lost = 0) ∧
    scores_total (scores db) + field_value (coins db) + lost = 250 * batches
}.

(** What the Redis store of the second variant keeps of the game: the coin
    hash is the last batch placed, whole, of which the field of the
    database is a part; a registered player has a Redis score of 0. *)
Record mirror_inv (s : Hybrid.State) : Prop := {
  mir_batch : ∃ perm,
    permutation_spec (Z.to_nat (WIDTH * HEIGHT)) perm ∧
    r_coins (Hybrid.redis s) = batch perm;
  mir_field : coins (Hybrid.database s) ⊆ r_coins (Hybrid.redis s);
  mir_scores : ∀ name, name ∈ usednames (Hybrid.database s) →
    r_scores (Hybrid.redis s) !! name = Some 0
}.

(** The direction that undoes a step. *)
Definition opposite (direction : string) : string :=
  if String.eqb direction "U" then "D"
  else if String.eqb direction "D" then "U"
  else if String.eqb direction "L" then "R"
  else if String.eqb direction "R" then "L"
  else direction.

(** ** Numbers and cell keys as strings *)

Section strings.

Lemma no_comma_uint d : no_comma (NilEmpty.string_of_uint d).
Proof. induction d; simpl; auto; split; auto; discriminate. Qed.

Lemma no_comma_number n : no_comma (number_toString n).
Proof.
  unfold number_toString, NilZero.string_of_int, NilZero.string_of_uint.
  destruct (Z.to_int n) as [d|d]; destruct d; simpl;
    repeat split; try discriminate; apply no_comma_uint.
Qed.

Lemma split_comma_no_comma s : no_comma s → split_comma s = [s].
Proof.
  induction s as [|c s IH]; simpl; [done|].
  intros [Hc Hs]. rewrite (IH Hs).
  destruct (Ascii.eqb_spec c ","%char); congruence.
Qed.

Lemma split_comma_app s1 s2 :
  no_comma s1 →
  split_comma (s1 +:+ "," +:+ s2) = s1 :: split_comma s2.
Proof.
  change ("," +:+ s2) with (String ","%char s2).
  induction s1 as [|c s1 IH]; simpl; [done|].
  intros [Hc Hs]. rewrite (IH Hs).
  destruct (Ascii.eqb_spec c ","%char); congruence.
Qed.

Lemma to_number_toString n : to_number (number_toString n) = Some n.
Proof.
  unfold to_number, number_toString.
  rewrite NilZero.isi.
  - simpl. by rewrite DecimalZ.of_to.
  - destruct n; simpl; try discriminate.
    intros [= H]. by apply Unsigned.to_uint_nonnil in H.
  - destruct n; simpl; try discriminate.
    intros [= H]. by apply Unsigned.to_uint_nonnil in H.
Qed.

(** Reading back a stored position gives the numbers it was written
    from. *)
Lemma read_point_cell_key a b : read_point (cell_key a b) = Some (a, b).
Proof.
  unfold read_point, cell_key.
  rewrite split_comma_app by apply no_comma_number.
  rewrite split_comma_no_comma by apply no_comma_number.
  by rewrite !to_number_toString.
Qed.

Lemma cell_key_inj a b a' b' :
  cell_key a b = cell_key a' b' → a = a' ∧ b = b'.
Proof.
  intros H. pose proof (read_point_cell_key a b) as E.
  rewrite H, read_point_cell_key in E. by injection E.
Qed.

Lemma coin_index_inj p q : coin_index p = coin_index q → p = q.
Proof.
  unfold coin_index, WIDTH. intros [Hd Hm]%cell_key_inj.
  rewrite !Z.rem_mod_nonneg in Hm by lia.
  pose proof (Z.div_mod (Z.of_nat p) 64). pose proof (Z.div_mod (Z.of_nat q) 64).
  lia.
Qed.

Lemma coin_index_cell p :
  (p < Z.to_nat (WIDTH * HEIGHT))%nat →
  ∃ a b, coin_index p = cell_key a b ∧ 0 ≤ a < WIDTH ∧ 0 ≤ b < HEIGHT.
Proof.
  unfold coin_index, WIDTH, HEIGHT. intros Hp.
  eexists _, _. split; [done|].
  rewrite Z.rem_mod_nonneg by lia.
  pose proof (Z.mod_pos_bound (Z.of_nat p) 64).
  split; [split|lia].
  - apply Z.div_pos; lia.
  - apply Z.div_lt_upper_bound; lia.
Qed.

Lemma unary_plus_toString n : unary_plus (number_toString n) = Some (Num n).
Proof.
  unfold unary_plus.
  destruct (String.eqb_spec (number_toString n) "NaN") as [E|_].
  - pose proof (to_number_toString n) as H. by rewrite E in H.
  - by rewrite to_number_toString.
Qed.

Lemma read_numbers_cell_key a b :
  read_numbers (cell_key a b) = Some (Num a, Num b).
Proof.
  unfold read_numbers, cell_key.
  rewrite split_comma_app by apply no_comma_number.
  rewrite split_comma_no_comma by apply no_comma_number.
  by rewrite !unary_plus_toString.
Qed.

(** The string of two [NaN] is the key of no cell. *)
Lemma cell_key_not_NaN a b : cell_key a b ≠ "NaN,NaN".
Proof.
  intros E. pose proof (read_point_cell_key a b) as H. by rewrite E in H.
Qed.

Lemma on_board_not_NaN : ¬ on_board "NaN,NaN".
Proof. intros (x & y & E & _). by apply (cell_key_not_NaN x y). Qed.

(** What a step makes of a stored position: the neighbouring cell, each
    coordinate kept on the board, when the direction has an array; the
    string of two [NaN] when the direction names a member of
    [Object.prototype], and from then on. *)
Lemma target_own d x y :
  target (Own d) (cell_key x y)
  = Some (cell_key (clamp (x + d.1) 0 (WIDTH - 1))
                   (clamp (y + d.2) 0 (HEIGHT - 1))).
Proof. unfold target. by rewrite read_numbers_cell_key. Qed.

Lemma target_inherited x y : target Inherited (cell_key x y) = Some "NaN,NaN".
Proof. unfold target. by rewrite read_numbers_cell_key. Qed.

Lemma target_NaN delta : target delta "NaN,NaN" = Some "NaN,NaN".
Proof. by destruct delta. Qed.

Lemma clamped_on_board x y (d : Z * Z) :
  on_board (cell_key (clamp (x + d.1) 0 (WIDTH - 1))
                     (clamp (y + d.2) 0 (HEIGHT - 1))).
Proof.
  eexists _, _. split; [done|].
  unfold clamp, WIDTH, HEIGHT. repeat case_match; lia.
Qed.

Lemma target_stored delta position :
  cell_or_NaN position →
  ∃ cell, target delta position = Some cell ∧ cell_or_NaN cell.
Proof.
  intros [(x & y & -> & _)| ->].
  - destruct delta as [d| |].
    + rewrite target_own. eexists. split; [done|]. left.
      apply clamped_on_board.
    + rewrite target_inherited. eexists. split; [done|]. by right.
    + exists "NaN,NaN". split; [|by right].
      unfold target. by rewrite read_numbers_cell_key.
  - rewrite target_NaN. eexists. split; [done|]. by right.
Qed.

(** The directions: four have an array, the names of the members of
    [Object.prototype] find one of these, every other string finds
    nothing. *)
Lemma delta_of_cases direction delta :
  delta_of direction = Own delta →
  delta ∈ [(0, -1); (1, 0); (0, 1); (-1, 0)].
Proof.
  unfold delta_of, obj_lookup. cbn [obj_get].
  repeat case_match; intros [= <-]; set_solver.
Qed.

Lemma delta_of_own direction delta :
  delta_of direction = Own delta ↔
  (direction, delta) ∈ [("U", (0, -1)); ("R", (1, 0)); ("D", (0, 1)); ("L", (-1, 0))].
Proof.
  unfold delta_of, obj_lookup. cbn [obj_get].
  rewrite !elem_of_cons, elem_of_nil.
  destruct (String.eqb_spec direction "U") as [->|HU].
  { split; [intros [= <-]; by left|].
    by intros [[= <-]|[[=]|[[=]|[[=]|[]]]]]. }
  destruct (String.eqb_spec direction "R") as [->|HR].
  { split; [intros [= <-]; right; by left|].
    by intros [[=]|[[= <-]|[[=]|[[=]|[]]]]]. }
  destruct (String.eqb_spec direction "D") as [->|HD].
  { split; [intros [= <-]; right; right; by left|].
    by intros [[=]|[[=]|[[= <-]|[[=]|[]]]]]. }
  destruct (String.eqb_spec direction "L") as [->|HL].
  { split; [intros [= <-]; right; right; right; by left|].
    by intros [[=]|[[=]|[[=]|[[= <-]|[]]]]]. }
  split; [by case_match|].
  intros [[= -> _]|[[= -> _]|[[= -> _]|[[= -> _]|[]]]]]; done.
Qed.

Lemma delta_of_inherited direction :
  delta_of direction = Inherited ↔ direction ∈ Object_prototype.
Proof.
  unfold delta_of, obj_lookup. cbn [obj_get].
  destruct (String.eqb_spec direction "U") as [->|HU].
  { split; [done|]. intros H. by apply (bool_decide_pack _) in H. }
  destruct (String.eqb_spec direction "R") as [->|HR].
  { split; [done|]. intros H. by apply (bool_decide_pack _) in H. }
  destruct (String.eqb_spec direction "D") as [->|HD].
  { split; [done|]. intros H. by apply (bool_decide_pack _) in H. }
  destruct (String.eqb_spec direction "L") as [->|HL].
  { split; [done|]. intros H. by apply (bool_decide_pack _) in H. }
  case_bool_decide; split; done.
Qed.

(** The directions that find something. *)
Lemma delta_of_found direction :
  delta_of direction ≠ Undefined ↔
  direction ∈ ["U"; "R"; "D"; "L"] ++ Object_prototype.
Proof.
  unfold delta_of, obj_lookup. cbn [obj_get].
  rewrite elem_of_app, !elem_of_cons, elem_of_nil.
  destruct (String.eqb_spec direction "U") as [->|HU]; [by intuition|].
  destruct (String.eqb_spec direction "R") as [->|HR]; [by intuition|].
  destruct (String.eqb_spec direction "D") as [->|HD]; [by intuition|].
  destruct (String.eqb_spec direction "L") as [->|HL]; [by intuition|].
  case_bool_decide as Hin.
  - split; [by right|done].
  - split; [done|]. intros [[?|[?|[?|[?|[]]]]]|?]; done.
Qed.

End strings.

(** ** Objects in insertion order *)

Section obj_lemmas.
Context {V : Type}.
Implicit Types (o : obj V) (k : string) (v : V).

Lemma obj_get_set_eq k v o : obj_get k (obj_set k v o) = Some v.
Proof.
  induction o as [|[k' v'] o IH]; simpl.
  - by rewrite String.eqb_refl.
  - destruct (String.eqb_spec k k') as [->|Hne]; simpl.
    + by rewrite String.eqb_refl.
    + by destruct (String.eqb_spec k k').
Qed.

Lemma obj_get_set_ne k k' v o :
  k ≠ k' → obj_get k' (obj_set k v o) = obj_get k' o.
Proof.
  intros Hne. induction o as [|[k0 v0] o IH]; simpl.
  - by destruct (String.eqb_spec k' k); [congruence|].
  - destruct (String.eqb_spec k k0) as [->|Hk]; simpl.
    + by destruct (String.eqb_spec k' k0); [congruence|].
    + by rewrite IH.
Qed.

Lemma obj_get_set k k' v o :
  obj_get k' (obj_set k v o) = if decide (k = k') then Some v else obj_get k' o.
Proof.
  case_decide as H; [subst; apply obj_get_set_eq | by apply obj_get_set_ne].
Qed.

(** Writing a property keeps the keys distinct. *)
Lemma obj_set_keys k v o :
  (obj_set k v o).*1 = if decide (k ∈ o.*1) then o.*1 else o.*1 ++ [k].
Proof.
  induction o as [|[k' v'] o IH].
  - case_decide as H; [by apply elem_of_nil in H|done].
  - cbn [obj_set]. destruct (String.eqb_spec k k') as [->|Hne].
    + rewrite decide_True; [done|]. rewrite fmap_cons. left.
    + rewrite !fmap_cons, IH. cbn [fst].
      destruct (decide (k ∈ o.*1)) as [Hin|Hin].
      * rewrite decide_True; [done|]. by right.
      * rewrite decide_False; [done|]. by intros [?|?]%elem_of_cons.
Qed.

Lemma obj_set_NoDup k v o : NoDup o.*1 → NoDup (obj_set k v o).*1.
Proof.
  intros Hnd. rewrite obj_set_keys. case_decide; [done|].
  apply NoDup_app. split_and!; [done| |apply NoDup_singleton].
  intros x Hx ->%list_elem_of_singleton. done.
Qed.
Lemma obj_assign_ne k v o : k ≠ "__proto__" → obj_assign k v o = obj_set k v o.
Proof. intros Hk. unfold obj_assign. by destruct (String.eqb_spec k "__proto__"). Qed.

Lemma obj_assign_proto v o : obj_assign "__proto__" v o = o.
Proof. done. Qed.

Lemma obj_get_assign k k' v o :
  obj_get k' (obj_assign k v o)
  = if decide (k = k' ∧ k ≠ "__proto__") then Some v else obj_get k' o.
Proof.
  unfold obj_assign. destruct (String.eqb_spec k "__proto__") as [->|Hk].
  - rewrite decide_False; [done|]. by intros [_ ?].
  - rewrite obj_get_set. case_decide as E; subst.
    + by rewrite decide_True.
    + rewrite decide_False; [done|]. by intros [? _].
Qed.

Lemma obj_assign_NoDup k v o : NoDup o.*1 → NoDup (obj_assign k v o).*1.
Proof.
  intros Hnd. unfold obj_assign. case_match; [done|]. by apply obj_set_NoDup.
Qed.
End obj_lemmas.

(** ** Placing a batch of coins *)

Section placing.

Lemma placed_cons i p l :
  placed i (p :: l) = (coin_index p, coinValue i) :: placed (S i) l.
Proof.
  unfold placed. rewrite imap_cons, Nat.add_0_r. f_equal.
  apply imap_ext. intros j q _. simpl. f_equal. f_equal. lia.
Qed.

Lemma placed_values i l : (placed i l).*2 = coinValue <$> seq i (length l).
Proof.
  revert i. induction l as [|p l IH]; intros i; [done|].
  rewrite placed_cons. simpl. by rewrite IH.
Qed.

Lemma placed_keys i l : (placed i l).*1 = coin_index <$> l.
Proof.
  revert i. induction l as [|p l IH]; intros i; [done|].
  rewrite placed_cons. simpl. by rewrite IH.
Qed.

Lemma placed_lookup i l j p :
  l !! j = Some p → (coin_index p, coinValue (i + j)) ∈ placed i l.
Proof.
  intros H. unfold placed. apply elem_of_lookup_imap. eauto.
Qed.

Lemma forEach_place_to_list l i (c : gmap string Z) :
  NoDup l → (∀ p, p ∈ l → c !! coin_index p = None) →
  map_to_list (forEach place l i c) ≡ₚ placed i l ++ map_to_list c.
Proof.
  revert i c. induction l as [|p l IH]; intros i c Hnd Hfresh; [done|].
  apply NoDup_cons in Hnd as [Hp Hnd].
  cbn [forEach]. rewrite placed_cons, IH; [|done|].
  - unfold place. rewrite map_to_list_insert by (apply Hfresh; left).
    by rewrite <- Permutation_middle.
  - intros q Hq. unfold place. rewrite lookup_insert_ne.
    + apply Hfresh. by right.
    + intros E%coin_index_inj. congruence.
Qed.

(** The first hundred entries of a permutation of the cell indices. *)
Lemma take_permutation perm n :
  permutation_spec (Z.to_nat (WIDTH * HEIGHT)) perm → (n ≤ 4096)%nat →
  length (take n perm) = n ∧ NoDup (take n perm) ∧
  ∀ p, p ∈ take n perm → (p < Z.to_nat (WIDTH * HEIGHT))%nat.
Proof.
  unfold permutation_spec. intros Hperm Hn.
  change (Z.to_nat (WIDTH * HEIGHT)) with 4096%nat in *.
  assert (length perm = 4096%nat) as Hlen
    by (by rewrite Hperm, length_seq).
  split_and!.
  - rewrite length_take. lia.
  - apply (sublist_NoDup _ perm); [|apply sublist_take].
    rewrite Hperm. apply NoDup_seq.
  - intros p Hp%subseteq_take. rewrite Hperm in Hp.
    apply elem_of_seq in Hp. lia.
Qed.

Lemma coinValue_cases i : coinValue i ∈ [1; 2; 5; 10].
Proof.
  unfold coinValue. repeat case_match; set_solver.
Qed.

Lemma forEach_place_empty perm :
  permutation_spec (Z.to_nat (WIDTH * HEIGHT)) perm →
  map_to_list (forEach place (take 100 perm) 0%nat ∅)
    ≡ₚ placed 0 (take 100 perm).
Proof.
  intros Hperm.
  destruct (take_permutation perm 100 Hperm) as (_ & Hnd & _); [lia|].
  rewrite forEach_place_to_list; [|done|intros; apply lookup_empty].
  by rewrite map_to_list_empty, app_nil_r.
Qed.

Lemma forEach_place_fresh perm :
  permutation_spec (Z.to_nat (WIDTH * HEIGHT)) perm →
  fresh_batch perm (forEach place (take 100 perm) 0%nat ∅).
Proof.
  intros Hperm. pose proof (forEach_place_empty perm Hperm) as Hlist.
  destruct (take_permutation perm 100 Hperm) as (Hlen & Hnd & _); [lia|].
  split_and!.
  - by rewrite <- length_map_to_list, Hlist, <- (length_fmap fst), placed_keys,
      length_fmap.
  - by rewrite Hlist, placed_values, Hlen.
  - intros i position Hi.
    assert ((i ≤ 99)%nat →
      forEach place (take 100 perm) 0%nat ∅ !! coin_index position
      = Some (coinValue i)) as Hrank.
    { intros Hle. apply elem_of_map_to_list. rewrite Hlist.
      apply (placed_lookup 0). rewrite lookup_take_lt by lia. done. }
    unfold coinValue in Hrank.
    split_and!; intros Hr; rewrite Hrank by lia;
      repeat case_match; try done;
      repeat match goal with
      | H : (_ <? _)%nat = true |- _ => apply Nat.ltb_lt in H
      | H : (_ <? _)%nat = false |- _ => apply Nat.ltb_ge in H
      end; lia.
Qed.

Lemma forEach_place_on_board perm :
  permutation_spec (Z.to_nat (WIDTH * HEIGHT)) perm →
  coins_on_board (forEach place (take 100 perm) 0%nat ∅).
Proof.
  intros Hperm k v Hkv.
  destruct (take_permutation perm 100 Hperm) as (_ & _ & Hlt); [lia|].
  apply elem_of_map_to_list in Hkv.
  rewrite (forEach_place_empty perm Hperm) in Hkv.
  apply elem_of_lookup_imap in Hkv as (j & p & [= -> ->] & Hp).
  split; [|apply coinValue_cases].
  apply coin_index_cell, Hlt. by eapply list_elem_of_lookup_2.
Qed.

End placing.

(** ** The two variants do the same to the database *)

Section variants.

Lemma GameJs_placeCoins_coins perm db :
  coins (GameJs.placeCoins perm db)
  = forEach place (take 100 perm) 0%nat (coins db).
Proof. done. Qed.

Lemma Hybrid_placeCoins_database perm s :
  Hybrid.database (Hybrid.placeCoins perm s)
  = GameJs.placeCoins perm (Hybrid.database s).
Proof.
  unfold Hybrid.placeCoins, GameJs.placeCoins, NUM_COINS.
  generalize (take 100 perm). intros l. generalize 0%nat.
  set (r := mkRedis _ _ _ _). clearbody r.
  destruct s as [db r0]. cbn [Hybrid.database]. clear r0.
  revert db r. induction l as [|p l IH]; intros db r i.
  - by destruct db.
  - cbn [forEach]. by rewrite IH.
Qed.

Lemma Hybrid_placeCoins_redis perm s :
  let r := Hybrid.redis (Hybrid.placeCoins perm s) in
  r_coins r = forEach place (take 100 perm) 0%nat ∅ ∧
  r_usednames r = r_usednames (Hybrid.redis s) ∧
  r_strings r = r_strings (Hybrid.redis s) ∧
  r_scores r = r_scores (Hybrid.redis s).
Proof.
  unfold Hybrid.placeCoins, NUM_COINS.
  generalize (take 100 perm). intros l. generalize 0%nat.
  destruct s as [db [u st sc rc]]. cbn [Hybrid.database Hybrid.redis
    r_usednames r_strings r_scores].
  generalize (∅ : gmap string Z). clear rc.
  revert db. induction l as [|p l IH]; intros db c i; [done|].
  cbn [forEach]. apply IH.
Qed.

(** [move] of [game.js] is [move] of the other variant with the name
    fixed to [alice]. *)
Lemma GameJs_move_alice perm direction db r :
  GameJs.move perm direction db
  = match Hybrid.move perm direction "alice" (Hybrid.mkState db r) with
    | Normal s => Normal (Hybrid.database s)
    | TypeError s => TypeError (Hybrid.database s)
    | Unmodelled => Unmodelled
    end.
Proof.
  unfold GameJs.move, Hybrid.move. cbn [Hybrid.database Hybrid.redis].
  change (substring_from 7 "player:alice") with "alice".
  change ("player:" +:+ "alice") with "player:alice".
  repeat case_match; simplify_eq/=; try done.
  all: by rewrite Hybrid_placeCoins_database.
Qed.

(** The length test of [addPlayer] lets every name through: a name that
    fails [name.length !== 0] has length 0, which is at most 32. *)
Lemma length_test_vacuous name :
  negb (String.length name =? 0)%nat
  || (String.length name <=? MAX_PLAYER_NAME_LENGTH)%nat = true.
Proof.
  destruct (Nat.eqb_spec (String.length name) 0) as [->|]; done.
Qed.

(** A call of [addPlayer] whose reply callback runs at once: the name is
    refused when Redis holds it, and registered otherwise. *)
Lemma Hybrid_addPlayer_call pt pt' name s :
  Hybrid.addPlayer pt pt' name s
  = if decide (name ∈ r_usednames (Hybrid.redis s)) then (Badname name, s)
    else Hybrid.addPlayer_reply 0 pt pt' name s.
Proof.
  unfold Hybrid.addPlayer, sismember. rewrite length_test_vacuous.
  by case_decide.
Qed.

Lemma RedisOnly_addPlayer_call pt name r :
  RedisOnly.addPlayer pt name r
  = if decide (name ∈ r_usednames r) then (Badname name, r)
    else RedisOnly.addPlayer_reply 0 pt name r.
Proof.
  unfold RedisOnly.addPlayer, sismember. rewrite length_test_vacuous.
  by case_decide.
Qed.

End variants.

(** ** Invariants of the database *)

Section invariants.

Lemma clamp_bounds value low high :
  low ≤ high → low ≤ clamp value low high ≤ high.
Proof. unfold clamp. intros. repeat case_match; lia. Qed.

Lemma clamp_inside value low high :
  low ≤ value ≤ high → clamp value low high = value.
Proof. unfold clamp. intros. repeat case_match; lia. Qed.

Lemma truthy_coin v : v ∈ [1; 2; 5; 10] → truthy v = true.
Proof. intros Hv. repeat (apply elem_of_cons in Hv as [->|Hv]; [done|]).
  by apply elem_of_nil in Hv. Qed.

Lemma players_inv_empty : players_inv empty_database.
Proof. split; simpl; [set_solver..|done|done]. Qed.

Lemma randomPoint_on_board pt :
  randomPoint_spec WIDTH HEIGHT pt → on_board (cell_key pt.1 pt.2).
Proof.
  intros [??]. exists pt.1, pt.2. split; [done|].
  unfold WIDTH, HEIGHT in *. lia.
Qed.

Lemma players_inv_registered pt name db :
  randomPoint_spec WIDTH HEIGHT pt →
  players_inv db → players_inv (registered pt name db).
Proof.
  intros Hpt [Hp Hs Hproto Hpos]. split; cbn.
  - intros n Hn. rewrite obj_get_set. case_decide as Hk; [eauto|].
    apply Hp. apply elem_of_union in Hn as [Hn| ->%elem_of_singleton]; done.
  - intros n Hn Hne. rewrite obj_get_assign. case_decide as Hk; [eauto|].
    apply Hs; [|done].
    apply elem_of_union in Hn as [Hn| ->%elem_of_singleton]; [done|].
    by destruct Hk.
  - rewrite obj_get_assign. case_decide as Hk; [by destruct Hk|done].
  - intros key position. rewrite obj_get_set. case_decide as Hk.
    + intros [= <-]. split; [left; by apply randomPoint_on_board|].
      exists name. split; [done|]. apply elem_of_union_r, elem_of_singleton_2.
      done.
    + intros [Hb (n & -> & Hn)]%Hpos. split; [done|].
      exists n. split; [done|]. by apply elem_of_union_l.
Qed.

Lemma players_inv_placeCoins perm db :
  players_inv db → players_inv (GameJs.placeCoins perm db).
Proof. by intros [Hp Hs Hproto Hpos]. Qed.

(** A batch placed on an empty field establishes the coin invariants. *)
Lemma db_inv_placeCoins perm db :
  permutation_spec (Z.to_nat (WIDTH * HEIGHT)) perm →
  size (coins db) = 0%nat →
  players_inv db → db_inv (GameJs.placeCoins perm db).
Proof.
  intros Hperm Hempty%map_size_empty_inv Hp.
  split; [by apply players_inv_placeCoins| |];
    rewrite GameJs_placeCoins_coins, Hempty.
  - by apply forEach_place_on_board.
  - apply map_size_non_empty_iff.
    destruct (forEach_place_fresh perm Hperm) as [-> _]. lia.
Qed.

(** No coin lies under the string of two [NaN]. *)
Lemma coins_on_board_NaN c : coins_on_board c → c !! "NaN,NaN" = None.
Proof.
  intros Hc. destruct (c !! "NaN,NaN") as [v|] eqn:E; [|done].
  destruct (Hc _ _ E) as [(a & b & Hk & _) _].
  symmetry in Hk. by apply cell_key_not_NaN in Hk.
Qed.

End invariants.

(** ** What a move of a registered player does *)

Section moving.

(** What [scores[name] += value] does to the scores of a database that
    satisfies the invariant, for a registered player. *)
Lemma add_assign_credited name value (o : obj Z) :
  obj_get "__proto__" o = None →
  (name ≠ "__proto__" → is_Some (obj_get name o)) →
  add_assign name value o = Some (credited name value o).
Proof.
  intros Hproto Hscore. unfold add_assign, credited, obj_lookup.
  destruct (decide (name = "__proto__")) as [->|Hne].
  - by rewrite Hproto.
  - destruct (Hscore Hne) as [score ->]. by rewrite obj_assign_ne.
Qed.

(** [move], for a direction that finds something and a player with a
    stored position, in terms of the position it stores. *)
Lemma Hybrid_move_landed perm direction name s position cell :
  delta_of direction ≠ Undefined →
  obj_get ("player:" +:+ name) (players (Hybrid.database s)) = Some position →
  target (delta_of direction) position = Some cell →
  (∀ value, coins (Hybrid.database s) !! cell = Some value →
     truthy value = true ∧
     add_assign name value (scores (Hybrid.database s))
     = Some (credited name value (scores (Hybrid.database s)))) →
  let s1 := landed name cell s in
  Hybrid.move perm direction name s
  = Normal (if (size (coins (Hybrid.database s1)) =? 0)%nat
            then Hybrid.placeCoins perm s1 else s1).
Proof.
  intros Hdelta Hposition Htarget Hcoin. unfold Hybrid.move, landed.
  unfold target in Htarget.
  destruct (read_numbers position) as [[x y]|] eqn:Hread; [|done].
  injection Htarget as Hcell.
  destruct (delta_of direction) as [d| |] eqn:Hd; [| |done];
    cbv beta iota zeta; rewrite Hposition, Hread; cbv beta iota zeta;
    rewrite Hcell;
    (destruct (coins (Hybrid.database s) !! cell) as [value|] eqn:Hvalue;
     [destruct (Hcoin value eq_refl) as [-> ->]|rewrite (delete_id _ _ Hvalue)]);
    by case_match.
Qed.

Lemma Hybrid_move_registered s perm direction name :
  players_inv (Hybrid.database s) →
  coins_on_board (coins (Hybrid.database s)) →
  name ∈ usednames (Hybrid.database s) →
  delta_of direction ≠ Undefined →
  ∃ position cell,
    obj_get ("player:" +:+ name) (players (Hybrid.database s)) = Some position ∧
    cell_or_NaN position ∧
    target (delta_of direction) position = Some cell ∧
    cell_or_NaN cell ∧
    let s1 := landed name cell s in
    Hybrid.move perm direction name s
    = Normal (if (size (coins (Hybrid.database s1)) =? 0)%nat
              then Hybrid.placeCoins perm s1 else s1).
Proof.
  intros [Hp Hs Hproto Hpos] Hcoins Hname Hdelta.
  destruct (Hp name Hname) as [position Hposition].
  destruct (Hpos _ _ Hposition) as [Hstored _].
  destruct (target_stored (delta_of direction) position Hstored)
    as (cell & Htarget & Hcell).
  exists position, cell. split_and!; try done.
  apply (Hybrid_move_landed _ _ _ _ position); try done.
  intros value Hvalue. destruct (Hcoins _ _ Hvalue) as [_ Hv].
  split; [by apply truthy_coin|].
  apply add_assign_credited; [done|]. intros Hne. by apply Hs.
Qed.

(** A move in a direction that finds nothing changes nothing. *)
Lemma Hybrid_move_undefined perm direction name s :
  delta_of direction = Undefined → Hybrid.move perm direction name s = Normal s.
Proof. intros Hd. unfold Hybrid.move. by rewrite Hd. Qed.

Lemma credited_get name value (o : obj Z) other :
  obj_get other (credited name value o)
  = if decide (name = other) then (λ score, score + value) <$> obj_get name o
    else obj_get other o.
Proof.
  unfold credited. destruct (obj_get name o) as [score|] eqn:Hscore.
  - rewrite obj_get_set. by case_decide.
  - case_decide; [by subst; rewrite Hscore|done].
Qed.

Lemma landed_players_inv name cell s :
  players_inv (Hybrid.database s) → name ∈ usednames (Hybrid.database s) →
  cell_or_NaN cell →
  players_inv (Hybrid.database (landed name cell s)).
Proof.
  intros [Hp Hs Hproto Hpos] Hname Hcell. split; cbn.
  - intros n Hn. rewrite obj_get_set. case_decide; [eauto|auto].
  - intros n Hn Hne. destruct (coins _ !! cell); [|auto].
    rewrite credited_get. case_decide; [subst|auto].
    destruct (Hs n Hn Hne) as [score ->]. eauto.
  - destruct (coins _ !! cell); [|done].
    rewrite credited_get. case_decide as E; [|done]. by rewrite E, Hproto.
  - intros key position. rewrite obj_get_set. case_decide as Hk.
    + intros [= <-]. eauto.
    + apply Hpos.
Qed.

Lemma landed_coins_on_board name cell s :
  coins_on_board (coins (Hybrid.database s)) →
  coins_on_board (coins (Hybrid.database (landed name cell s))).
Proof.
  intros Hc k v Hkv. cbn in Hkv.
  apply lookup_delete_Some in Hkv as [_ Hkv]. by apply Hc.
Qed.

(** Every operation of the second variant keeps the invariants. *)
Lemma Hybrid_placeCoins_inv perm s :
  permutation_spec (Z.to_nat (WIDTH * HEIGHT)) perm →
  size (coins (Hybrid.database s)) = 0%nat →
  players_inv (Hybrid.database s) →
  db_inv (Hybrid.database (Hybrid.placeCoins perm s)).
Proof.
  intros. rewrite Hybrid_placeCoins_database. by apply db_inv_placeCoins.
Qed.

Lemma Hybrid_addPlayer_inv pt pt' name s :
  randomPoint_spec WIDTH HEIGHT pt →
  db_inv (Hybrid.database s) →
  db_inv (Hybrid.database (Hybrid.addPlayer pt pt' name s).2).
Proof.
  intros Hpt [Hp Hc Hne]. rewrite Hybrid_addPlayer_call.
  case_decide; [done|].
  split; [|done..]. by apply (players_inv_registered pt name).
Qed.

Lemma Hybrid_move_inv perm direction name s s' :
  permutation_spec (Z.to_nat (WIDTH * HEIGHT)) perm →
  db_inv (Hybrid.database s) → name ∈ usednames (Hybrid.database s) →
  Hybrid.move perm direction name s = Normal s' →
  db_inv (Hybrid.database s').
Proof.
  intros Hperm [Hp Hc Hne] Hname Hmove.
  destruct (decide (delta_of direction = Undefined)) as [Hd|Hd].
  - rewrite Hybrid_move_undefined in Hmove by done. by injection Hmove as <-.
  - destruct (Hybrid_move_registered s perm direction name)
      as (position & cell & _ & _ & _ & Hcell & Hm); [done..|].
    cbn zeta in Hm. set (s1 := landed _ _ _) in Hm.
    destruct (Nat.eqb_spec (size (coins (Hybrid.database s1))) 0)
      as [Hz|Hnz]; rewrite Hm in Hmove; injection Hmove as <-.
    + apply Hybrid_placeCoins_inv; [done..|]. by apply landed_players_inv.
    + split.
      * by apply landed_players_inv.
      * by apply landed_coins_on_board.
      * by apply map_size_non_empty_iff.
Qed.

Lemma Hybrid_move_r_usednames perm direction name s s' :
  Hybrid.move perm direction name s = Normal s' →
  r_usednames (Hybrid.redis s') = r_usednames (Hybrid.redis s).
Proof.
  intros Hmove. unfold Hybrid.move in Hmove.
  repeat case_match; simplify_eq; try done.
  all: match goal with
       | |- r_usednames (Hybrid.redis (Hybrid.placeCoins ?p ?s1)) = _ =>
           by destruct (Hybrid_placeCoins_redis p s1) as (_ & -> & _)
       end.
Qed.

Lemma Hybrid_move_usednames perm direction name s s' :
  Hybrid.move perm direction name s = Normal s' →
  usednames (Hybrid.database s') = usednames (Hybrid.database s).
Proof.
  unfold Hybrid.move. repeat case_match; intros [= <-]; try done.
  all: by rewrite Hybrid_placeCoins_database.
Qed.

Lemma Hybrid_reachable_inv s :
  Hybrid.reachable s →
  db_inv (Hybrid.database s) ∧
  usednames (Hybrid.database s) ⊆ r_usednames (Hybrid.redis s).
Proof.
  induction 1 as [perm r Hperm|s pt pt' name _ [IH Hsub] Hpt Hpt'
                  |s perm direction name s' _ [IH Hsub] Hname Hperm Hmove].
  - split.
    + by apply Hybrid_placeCoins_inv; [| |apply players_inv_empty].
    + unfold Hybrid.loaded. rewrite Hybrid_placeCoins_database. cbn.
      apply empty_subseteq.
  - split; [by apply Hybrid_addPlayer_inv|].
    rewrite Hybrid_addPlayer_call. case_decide; [done|]. cbn.
    by apply union_mono_r.
  - split; [by eapply Hybrid_move_inv|].
    rewrite (Hybrid_move_usednames _ _ _ _ _ Hmove).
    by rewrite (Hybrid_move_r_usednames _ _ _ _ _ Hmove).
Qed.

End moving.

(** ** The first variant keeps the same invariants *)

Section game_js.

Lemma GameJs_addPlayer_registered pt name db :
  GameJs.addPlayer pt name db
  = if decide (name ∈ usednames db) then (false, db)
    else (true, registered pt name db).
Proof. done. Qed.

Lemma GameJs_addPlayer_inv pt name db :
  randomPoint_spec WIDTH HEIGHT pt →
  db_inv db → db_inv (GameJs.addPlayer pt name db).2.
Proof.
  intros Hpt [Hp Hc Hne]. rewrite GameJs_addPlayer_registered.
  case_decide; [done|]. split; [|done..]. by apply players_inv_registered.
Qed.

Lemma GameJs_addPlayer_usednames pt name db :
  usednames db ⊆ usednames (GameJs.addPlayer pt name db).2 ∧
  name ∈ usednames (GameJs.addPlayer pt name db).2.
Proof.
  rewrite GameJs_addPlayer_registered. case_decide; cbn.
  - done.
  - split; [apply union_subseteq_l|].
    apply elem_of_union_r. by apply elem_of_singleton.
Qed.

Lemma GameJs_move_usednames perm direction db db' :
  GameJs.move perm direction db = Normal db' → usednames db' = usednames db.
Proof.
  unfold GameJs.move. repeat case_match; intros [= <-]; done.
Qed.

(** What [move] of [game.js] returns, through [move] of the second
    variant. *)
Lemma GameJs_move_Normal perm direction db db' :
  GameJs.move perm direction db = Normal db' →
  ∃ s', Hybrid.move perm direction "alice" (Hybrid.mkState db (mkRedis ∅ ∅ ∅ ∅))
        = Normal s' ∧ Hybrid.database s' = db'.
Proof.
  rewrite (GameJs_move_alice perm direction db (mkRedis ∅ ∅ ∅ ∅)).
  destruct (Hybrid.move perm direction "alice" _) as [s'| |]; try done.
  intros [= <-]. by exists s'.
Qed.

Lemma GameJs_reachable_inv db :
  GameJs.reachable db → db_inv db ∧ "alice" ∈ usednames db.
Proof.
  induction 1 as [perm pa pb Hperm Hpa Hpb|db pt name _ [IH Ha] Hpt
                  |db perm direction db' _ [IH Ha] Hperm Hmove].
  - unfold GameJs.loaded. split.
    + apply GameJs_addPlayer_inv; [done|].
      apply GameJs_addPlayer_inv; [done|].
      by apply db_inv_placeCoins; [| |apply players_inv_empty].
    + apply (GameJs_addPlayer_usednames pb "bob").
      apply (GameJs_addPlayer_usednames pa "alice").
  - split; [by apply GameJs_addPlayer_inv|].
    by apply (GameJs_addPlayer_usednames pt name).
  - split; [|by rewrite (GameJs_move_usednames _ _ _ _ Hmove)].
    apply GameJs_move_Normal in Hmove as (s' & Hm & <-).
    by apply (Hybrid_move_inv perm direction "alice" _ s' Hperm) in Hm.
Qed.

End game_js.
(** ** Runs of the server *)

Lemma demo_perm_spec : permutation_spec (Z.to_nat (WIDTH * HEIGHT)) demo_perm.
Proof. unfold permutation_spec, demo_perm. reflexivity. Defined.

Lemma demo_state_reachable : Hybrid.reachable demo_state.
Proof.
  unfold demo_state.
  apply Hybrid.reach_addPlayer; [|by vm_compute..].
  apply Hybrid.reach_addPlayer; [|by vm_compute..].
  apply Hybrid.reach_loaded, demo_perm_spec.
Defined.

Lemma placeCoins_batch perm db :
  size (coins db) = 0%nat → coins (GameJs.placeCoins perm db) = batch perm.
Proof.
  intros Hempty%map_size_empty_inv.
  by rewrite GameJs_placeCoins_coins, Hempty.
Qed.

Lemma moves_reachable perm name directions s s' :
  permutation_spec (Z.to_nat (WIDTH * HEIGHT)) perm →
  Hybrid.reachable s → name ∈ usednames (Hybrid.database s) →
  moves perm name directions s = Normal s' → Hybrid.reachable s'.
Proof.
  intros Hperm. revert s.
  induction directions as [|direction directions IH]; intros s Hreach Hname.
  - by intros [= <-].
  - cbn [moves].
    destruct (Hybrid.move perm direction name s) as [s1| |] eqn:Hm; try done.
    apply IH.
    + by apply (Hybrid.reach_move s perm direction name).
    + by rewrite (Hybrid_move_usednames _ _ _ _ _ Hm).
Qed.

Lemma demo_last_coin_reachable : Hybrid.reachable demo_last_coin.
Proof.
  apply (moves_reachable demo_perm "bob" demo_walk demo_state).
  - exact demo_perm_spec.
  - exact demo_state_reachable.
  - apply (bool_decide_unpack _). vm_compute. exact I.
  - assert (returns (moves demo_perm "bob" demo_walk demo_state) = true) as Hr
      by (vm_compute; reflexivity).
    unfold demo_last_coin.
    by destruct (moves demo_perm "bob" demo_walk demo_state).
Defined.

Lemma js_moves_reachable perm directions db db' :
  permutation_spec (Z.to_nat (WIDTH * HEIGHT)) perm →
  GameJs.reachable db →
  js_moves perm directions db = Normal db' → GameJs.reachable db'.
Proof.
  intros Hperm. revert db.
  induction directions as [|direction directions IH]; intros db Hreach.
  - by intros [= <-].
  - cbn [js_moves].
    destruct (GameJs.move perm direction db) as [db1| |] eqn:Hm; try done.
    apply IH. by apply (GameJs.reach_move db perm direction).
Qed.

Lemma demo_js_start_reachable : GameJs.reachable demo_js_start.
Proof.
  apply GameJs.reach_loaded; [exact demo_perm_spec|by vm_compute..].
Defined.

Lemma demo_js_last_coin_reachable : GameJs.reachable demo_js_last_coin.
Proof.
  apply (js_moves_reachable demo_perm demo_walk demo_js_start).
  - exact demo_perm_spec.
  - exact demo_js_start_reachable.
  - assert (returns (js_moves demo_perm demo_walk demo_js_start) = true) as Hr
      by (vm_compute; reflexivity).
    unfold demo_js_last_coin.
    by destruct (js_moves demo_perm demo_walk demo_js_start).
Defined.

Lemma demo_proto_reachable : Hybrid.reachable demo_proto.
Proof.
  unfold demo_proto.
  apply Hybrid.reach_addPlayer; [|by vm_compute..].
  apply Hybrid.reach_loaded, demo_perm_spec.
Defined.

Lemma coins_on_board_one_per_cell c :
  coins_on_board c → one_coin_per_cell c.
Proof.
  intros Hc. split.
  - intros k [v Hk]. destruct (Hc k v Hk) as [(a & b & -> & Ha & Hb) _].
    exists a, b. rewrite read_point_cell_key. unfold WIDTH, HEIGHT in *.
    split; [done|lia].
  - intros k1 k2 [v1 H1] [v2 H2].
    destruct (Hc k1 v1 H1) as [(a1 & b1 & -> & _) _].
    destruct (Hc k2 v2 H2) as [(a2 & b2 & -> & _) _].
    rewrite !read_point_cell_key. by intros [= -> ->].
Qed.

(** A name that is not in use has no player key. *)
Lemma unknown_player_no_key db name :
  players_inv db → name ∉ usednames db →
  obj_get ("player:" +:+ name) (players db) = None.
Proof.
  intros [_ _ _ Hpos] Hname.
  destruct (obj_get _ (players db)) as [position|] eqn:Hget; [|done].
  destruct (Hpos _ _ Hget) as [_ (name' & E & Hname')].
  by apply (inj (String.app "player:")) in E as ->.
Qed.

Lemma demo_mallory_unknown : "mallory" ∉ usednames (Hybrid.database demo_state).
Proof. apply (bool_decide_unpack _). vm_compute. exact I. Defined.

Lemma RedisOnly_addPlayer_fresh pt name r :
  name ∉ r_usednames r →
  (RedisOnly.addPlayer pt name r).1 = Welcome ∧
  name ∈ r_usednames (RedisOnly.addPlayer pt name r).2.
Proof.
  intros Hname. rewrite RedisOnly_addPlayer_call, decide_False by done. cbn.
  split; [done|]. apply elem_of_union_r. by apply elem_of_singleton.
Qed.

Lemma GameJs_loaded_usednames perm pa pb :
  usednames (GameJs.loaded perm pa pb) = ∅ ∪ {["alice"]} ∪ {["bob"]}.
Proof.
  unfold GameJs.loaded.
  set (db0 := GameJs.placeCoins perm empty_database).
  assert (usednames db0 = ∅) as Hnone by done.
  rewrite (GameJs_addPlayer_registered pa "alice" db0).
  rewrite decide_False by (rewrite Hnone; apply not_elem_of_empty).
  cbn [snd]. rewrite GameJs_addPlayer_registered.
  rewrite decide_False.
  - cbn [snd registered usednames]. by rewrite Hnone.
  - cbn [registered usednames]. rewrite Hnone.
    rewrite elem_of_union, elem_of_singleton, elem_of_empty.
    intros [[]|[=]].
Qed.

Lemma GameJs_addPlayer_fresh pt name db :
  name ∉ usednames db →
  (GameJs.addPlayer pt name db).1 = true ∧
  name ∈ usednames (GameJs.addPlayer pt name db).2.
Proof.
  intros Hname. rewrite GameJs_addPlayer_registered, decide_False by done.
  split; [done|]. apply elem_of_union_r. by apply elem_of_singleton.
Qed.

Lemma Hybrid_addPlayer_fresh pt pt' name s :
  name ∉ r_usednames (Hybrid.redis s) →
  (Hybrid.addPlayer pt pt' name s).1 = Welcome ∧
  name ∈ usednames (Hybrid.database (Hybrid.addPlayer pt pt' name s).2).
Proof.
  intros Hname. rewrite Hybrid_addPlayer_call, decide_False by done. cbn.
  split; [done|]. apply elem_of_union_r. by apply elem_of_singleton.
Qed.

(** ** The sort of [state] *)

Section sorting.
Context {A : Type} (comparefn : A → A → Z).

Hypothesis comparefn_nonneg : ∀ a b, 0 ≤ comparefn a b.

Lemma run_extend_nonneg previous l :
  run_extend comparefn false previous l = (l, []).
Proof.
  revert previous. induction l as [|current l IH]; intros previous; [done|].
  cbn [run_extend]. rewrite IH.
  destruct (Z.ltb_spec (comparefn current previous) 0); [|done].
  pose proof (comparefn_nonneg current previous). lia.
Qed.

(** A comparator that never returns a negative number makes the whole array
    one ascending run: the sort leaves the array as it is. *)
Lemma array_sort_nonneg l :
  (length l < 64)%nat → array_sort comparefn l = Some l.
Proof.
  intros Hlen. unfold array_sort.
  destruct (Nat.ltb_spec (length l) 64); [|lia].
  destruct l as [|a [|b l]]; [done..|].
  unfold CountAndMakeRun. cbv zeta.
  destruct (Z.ltb_spec (comparefn b a) 0) as [Hneg|_].
  - pose proof (comparefn_nonneg b a). lia.
  - by rewrite run_extend_nonneg.
Qed.

End sorting.

Lemma score_comparefn_nonneg p q : 0 ≤ score_comparefn p q.
Proof. unfold score_comparefn, bool_to_number. by case_match. Qed.

Lemma entries_length {V : Type} (o : obj V) : length (entries o) = length o.
Proof.
  unfold entries. rewrite merge_sort_Permutation.
  by rewrite filter_app_complement.
Qed.

(** With fewer than 64 players, [state] hands out the scores in the order
    of [Object.entries], whatever the scores are. *)
Lemma state_scores_unsorted s :
  (length (scores (Hybrid.database s)) < 64)%nat →
  ∃ view, Hybrid.state s = Normal view ∧
          GameJs.state (Hybrid.database s) = Normal view ∧
          v_scores view = entries (scores (Hybrid.database s)).
Proof.
  intros Hlen. unfold Hybrid.state, GameJs.state.
  rewrite (array_sort_nonneg _ score_comparefn_nonneg).
  - by eexists.
  - by rewrite entries_length.
Qed.

Lemma demo_bob_registered : "bob" ∈ usednames (Hybrid.database demo_state).
Proof. apply (bool_decide_unpack _). vm_compute. exact I. Defined.

Lemma demo_scored_reachable : Hybrid.reachable demo_scored.
Proof.
  apply (moves_reachable demo_perm "bob" ["L"] demo_state).
  - exact demo_perm_spec.
  - exact demo_state_reachable.
  - exact demo_bob_registered.
  - assert (returns (Hybrid.move demo_perm "L" "bob" demo_state) = true) as Hr
      by (vm_compute; reflexivity).
    unfold demo_scored. cbn [moves].
    by destruct (Hybrid.move demo_perm "L" "bob" demo_state).
Defined.

Lemma demo_scored_move :
  Hybrid.move demo_perm "L" "bob" demo_state = Normal demo_scored.
Proof.
  assert (returns (Hybrid.move demo_perm "L" "bob" demo_state) = true) as Hr
    by (vm_compute; reflexivity).
  unfold demo_scored.
  by destruct (Hybrid.move demo_perm "L" "bob" demo_state).
Defined.

Lemma demo_lost_move :
  Hybrid.move demo_perm "constructor" "bob" demo_state = Normal demo_lost.
Proof.
  assert (returns (Hybrid.move demo_perm "constructor" "bob" demo_state) = true)
    as Hr by (vm_compute; reflexivity).
  unfold demo_lost.
  by destruct (Hybrid.move demo_perm "constructor" "bob" demo_state).
Defined.

Lemma demo_lost_reachable : Hybrid.reachable demo_lost.
Proof.
  exact (Hybrid.reach_move demo_state demo_perm "constructor" "bob" demo_lost
           demo_state_reachable demo_bob_registered demo_perm_spec
           demo_lost_move).
Defined.

Lemma demo_proto_registered :
  "__proto__" ∈ usednames (Hybrid.database demo_proto).
Proof. apply (bool_decide_unpack _). vm_compute. exact I. Defined.

Lemma demo_proto_move :
  Hybrid.move demo_perm "L" "__proto__" demo_proto = Normal demo_proto_moved.
Proof.
  assert (returns (Hybrid.move demo_perm "L" "__proto__" demo_proto) = true)
    as Hr by (vm_compute; reflexivity).
  unfold demo_proto_moved.
  by destruct (Hybrid.move demo_perm "L" "__proto__" demo_proto).
Defined.

Lemma demo_js_moved_move :
  GameJs.move demo_perm "L" demo_js = Normal demo_js_moved.
Proof.
  assert (returns (GameJs.move demo_perm "L" demo_js) = true) as Hr
    by (vm_compute; reflexivity).
  unfold demo_js_moved. by destruct (GameJs.move demo_perm "L" demo_js).
Defined.

(** * The books, the mirror and the view *)

(** ** The books of the database *)

Lemma zsum_perm l l' : l ≡ₚ l' → zsum l = zsum l'.
Proof.
  unfold zsum.
  induction 1 as [|x l l' _ IH|x y l|l l' l'' _ IH1 _ IH2]; cbn; lia.
Qed.

Lemma obj_get_None {V : Type} (k : string) (o : obj V) :
  obj_get k o = None ↔ k ∉ o.*1.
Proof.
  induction o as [|[k' v] o IH]; cbn.
  - split; [intros _; apply not_elem_of_nil|done].
  - destruct (String.eqb_spec k k') as [->|Hne].
    + split; [done|]. intros []. left.
    + rewrite IH, not_elem_of_cons. tauto.
Qed.

Lemma scores_total_set_fresh k v (o : obj Z) :
  k ∉ o.*1 → scores_total (obj_set k v o) = scores_total o + v.
Proof.
  unfold scores_total. induction o as [|[k' v'] o IH]; cbn.
  - intros _. unfold zsum. cbn. lia.
  - rewrite not_elem_of_cons. intros [Hne Hk].
    destruct (String.eqb_spec k k'); [done|]. cbn.
    specialize (IH Hk). unfold zsum in *. lia.
Qed.

Lemma scores_total_set k v v' (o : obj Z) :
  obj_get k o = Some v →
  scores_total (obj_set k v' o) = scores_total o - v + v'.
Proof.
  unfold scores_total. induction o as [|[k' v0] o IH]; cbn; [done|].
  destruct (String.eqb_spec k k') as [->|Hne]; cbn.
  - intros [= ->]. unfold zsum. lia.
  - intros Hget. specialize (IH Hget). unfold zsum in *. lia.
Qed.

Lemma field_value_delete (c : gmap string Z) k v :
  c !! k = Some v → field_value (delete k c) = field_value c - v.
Proof.
  intros Hk. unfold field_value.
  rewrite <- (zsum_perm _ _ (fmap_Permutation snd _ _ (map_to_list_delete c k v Hk))).
  unfold zsum. cbn. lia.
Qed.

Lemma field_value_batch perm :
  permutation_spec (Z.to_nat (WIDTH * HEIGHT)) perm →
  field_value (batch perm) = 250.
Proof.
  intros Hperm. destruct (forEach_place_fresh perm Hperm) as (_ & Hvalues & _).
  unfold field_value, batch, NUM_COINS. by rewrite (zsum_perm _ _ Hvalues).
Qed.

Lemma obj_get_Some_key {V : Type} (k : string) (v : V) (o : obj V) :
  obj_get k o = Some v → k ∈ o.*1.
Proof.
  intros Hget. destruct (decide (k ∈ o.*1)) as [|Hk]; [done|].
  apply obj_get_None in Hk. congruence.
Qed.

Lemma ledger_placeCoins perm db batches lost :
  permutation_spec (Z.to_nat (WIDTH * HEIGHT)) perm →
  size (coins db) = 0%nat →
  NoDup (players db).*1 → NoDup (scores db).*1 →
  (∀ name, name ∈ (scores db).*1 → name ∈ usednames db) →
  0 ≤ batches → 0 ≤ lost → ("__proto__" ∉ usednames db → lost = 0) →
  scores_total (scores db) + lost = 250 * batches →
  ledger_inv (GameJs.placeCoins perm db).
Proof.
  intros Hperm Hempty Hp Hs Hused Hn Hlost Hproto Htotal.
  split; try done.
  - rewrite placeCoins_batch by done. unfold batch, NUM_COINS.
    by destruct (forEach_place_fresh perm Hperm) as [-> _].
  - exists (batches + 1), lost. split; [lia|]. split; [done|]. split; [done|].
    rewrite placeCoins_batch, field_value_batch by done.
    change (scores (GameJs.placeCoins perm db)) with (scores db). lia.
Qed.

Lemma ledger_registered pt name db :
  ledger_inv db → name ∉ usednames db → ledger_inv (registered pt name db).
Proof.
  intros [Hp Hs Hused Hsize (batches & lost & Hn & Hlost & Hproto & Htotal)]
    Hname.
  assert (name ∉ (scores db).*1) as Hfresh by (intros ?%Hused; done).
  split; cbn [registered scores coins players usednames].
  - by apply obj_set_NoDup.
  - by apply obj_assign_NoDup.
  - intros k. unfold obj_assign. case_match.
    + intros ?%Hused. by apply elem_of_union_l.
    + rewrite obj_set_keys, decide_False by done.
      rewrite elem_of_app, list_elem_of_singleton, elem_of_union,
        elem_of_singleton.
      intros [?%Hused| ->]; auto.
  - done.
  - exists batches, lost. split; [done|]. split; [done|].
    destruct (decide (name = "__proto__")) as [->|Hne].
    + rewrite obj_assign_proto. split; [|done].
      intros []. apply elem_of_union_r. by apply elem_of_singleton.
    + rewrite obj_assign_ne by done. split.
      * intros Hnot. apply Hproto. intros Hin. apply Hnot.
        by apply elem_of_union_l.
      * rewrite scores_total_set_fresh by done. lia.
Qed.

Lemma ledger_landed name cell s :
  players_inv (Hybrid.database s) →
  coins_on_board (coins (Hybrid.database s)) →
  ledger_inv (Hybrid.database s) →
  name ∈ usednames (Hybrid.database s) →
  let db1 := Hybrid.database (landed name cell s) in
  NoDup (players db1).*1 ∧ NoDup (scores db1).*1 ∧
  (∀ k, k ∈ (scores db1).*1 → k ∈ usednames db1) ∧
  (size (coins db1) ≤ 100)%nat ∧
  ∃ batches lost, 1 ≤ batches ∧ 0 ≤ lost ∧
    ("__proto__" ∉ usednames db1 → lost = 0) ∧
    scores_total (scores db1) + field_value (coins db1) + lost = 250 * batches.
Proof.
  intros [_ Hscore _ _] Hcoins
    [Hp Hs Hused Hsize (batches & lost & Hn & Hlost & Hproto & Htotal)] Hname.
  cbn [landed Hybrid.database scores coins players usednames].
  destruct (coins (Hybrid.database s) !! cell) as [value|] eqn:Hcoin.
  - assert (0 ≤ value) as Hvalue.
    { destruct (Hcoins _ _ Hcoin) as [_ Hv].
      repeat (apply elem_of_cons in Hv as [->|Hv]; [lia|]).
      by apply elem_of_nil in Hv. }
    unfold credited.
    destruct (obj_get name (scores (Hybrid.database s))) as [score|] eqn:Hget.
    + pose proof (obj_get_Some_key _ _ _ Hget) as Hkey. split_and!.
      * by apply obj_set_NoDup.
      * by apply obj_set_NoDup.
      * intros k. rewrite obj_set_keys, decide_True by done. apply Hused.
      * rewrite map_size_delete, Hcoin. lia.
      * exists batches, lost. split; [done|]. split; [done|]. split; [done|].
        rewrite (scores_total_set _ _ _ _ Hget),
          (field_value_delete _ _ _ Hcoin). lia.
    + assert (name = "__proto__") as ->.
      { destruct (decide (name = "__proto__")) as [|Hne]; [done|].
        destruct (Hscore name Hname Hne) as [score E]. congruence. }
      split_and!.
      * by apply obj_set_NoDup.
      * done.
      * done.
      * rewrite map_size_delete, Hcoin. lia.
      * exists batches, (lost + value). split; [done|]. split; [lia|].
        split; [done|]. rewrite (field_value_delete _ _ _ Hcoin). lia.
  - rewrite delete_id by done. split_and!; try done.
    + by apply obj_set_NoDup.
    + by exists batches, lost.
Qed.

Lemma Hybrid_move_ledger perm direction name s s' :
  permutation_spec (Z.to_nat (WIDTH * HEIGHT)) perm →
  db_inv (Hybrid.database s) → ledger_inv (Hybrid.database s) →
  name ∈ usednames (Hybrid.database s) →
  Hybrid.move perm direction name s = Normal s' →
  ledger_inv (Hybrid.database s').
Proof.
  intros Hperm [Hp Hc Hne] Hled Hname Hmove.
  destruct (decide (delta_of direction = Undefined)) as [Hd|Hd].
  { rewrite Hybrid_move_undefined in Hmove by done. by injection Hmove as <-. }
  destruct (Hybrid_move_registered s perm direction name)
    as (position & cell & _ & _ & _ & _ & Hm); [done..|].
  cbn zeta in Hm.
  destruct (ledger_landed name cell s Hp Hc Hled Hname)
    as (Hp1 & Hs1 & Hused1 & Hsize1 & batches & lost & Hn & Hlost & Hproto
        & Htotal).
  set (s1 := landed _ _ _) in *.
  destruct (Nat.eqb_spec (size (coins (Hybrid.database s1))) 0)
    as [Hz|Hnz]; rewrite Hm in Hmove; injection Hmove as <-.
  - rewrite Hybrid_placeCoins_database.
    apply (ledger_placeCoins perm _ batches lost); try done; [lia|].
    apply map_size_empty_inv in Hz. rewrite Hz in Htotal.
    unfold field_value in Htotal. rewrite map_to_list_empty in Htotal.
    change (zsum ([] : list (string * Z)).*2) with 0 in Htotal. lia.
  - split; try done. by exists batches, lost.
Qed.

Lemma Hybrid_reachable_ledger s :
  Hybrid.reachable s → ledger_inv (Hybrid.database s).
Proof.
  induction 1 as [perm r Hperm|s pt pt' name Hreach IH Hpt Hpt'
                  |s perm direction name s' Hreach IH Hname Hperm Hmove].
  - unfold Hybrid.loaded. rewrite Hybrid_placeCoins_database.
    apply (ledger_placeCoins perm _ 0 0); try done; cbn;
      try apply NoDup_nil_2.
    intros name []%elem_of_nil.
  - destruct (Hybrid_reachable_inv s Hreach) as [_ Hsub].
    rewrite Hybrid_addPlayer_call. case_decide as Hin; [done|].
    apply (ledger_registered pt name); [done|].
    intros Hused. by apply Hsub in Hused.
  - destruct (Hybrid_reachable_inv s Hreach) as [Hinv _].
    by eapply Hybrid_move_ledger.
Qed.

Lemma GameJs_reachable_ledger db :
  GameJs.reachable db → ledger_inv db.
Proof.
  assert (∀ pt name db, ledger_inv db → ledger_inv (GameJs.addPlayer pt name db).2)
    as Hadd.
  { intros pt name db0 Hled. rewrite GameJs_addPlayer_registered.
    case_decide; [done|]. by apply ledger_registered. }
  induction 1 as [perm pa pb Hperm Hpa Hpb|db pt name _ IH Hpt
                  |db perm direction db' Hreach IH Hperm Hmove].
  - unfold GameJs.loaded. apply Hadd, Hadd.
    apply (ledger_placeCoins perm _ 0 0); try done; cbn;
      try apply NoDup_nil_2.
    intros name []%elem_of_nil.
  - by apply Hadd.
  - destruct (GameJs_reachable_inv db Hreach) as [Hinv Halice].
    apply GameJs_move_Normal in Hmove as (s' & Hm & <-).
    by apply (Hybrid_move_ledger perm direction "alice" _ s' Hperm) in Hm.
Qed.

(** ** The Redis store of the second variant *)

Lemma Hybrid_placeCoins_batch perm s :
  size (coins (Hybrid.database s)) = 0%nat →
  coins (Hybrid.database (Hybrid.placeCoins perm s)) = batch perm ∧
  r_coins (Hybrid.redis (Hybrid.placeCoins perm s)) = batch perm.
Proof.
  intros Hz. rewrite Hybrid_placeCoins_database, placeCoins_batch by done.
  by destruct (Hybrid_placeCoins_redis perm s) as (-> & _).
Qed.

Lemma Hybrid_reachable_mirror s : Hybrid.reachable s → mirror_inv s.
Proof.
  induction 1 as [perm r Hperm|s pt pt' name Hreach [Hb Hf Hs] Hpt Hpt'
                  |s perm direction name s' Hreach [Hb Hf Hs] Hname Hperm Hmove].
  - destruct (Hybrid_placeCoins_batch perm
                (Hybrid.mkState empty_database r)) as [Hdb Hr]; [done|].
    split.
    + by exists perm.
    + unfold Hybrid.loaded. by rewrite Hdb, Hr.
    + unfold Hybrid.loaded. rewrite Hybrid_placeCoins_database. cbn.
      intros name []%elem_of_empty.
  - rewrite Hybrid_addPlayer_call. case_decide; [done|].
    split; cbn; [done..|].
    intros other [Hother| ->%elem_of_singleton]%elem_of_union.
    + destruct (decide (name = other)) as [->|Hne].
      * by rewrite lookup_insert_eq.
      * rewrite lookup_insert_ne by done. by apply Hs.
    + by rewrite lookup_insert_eq.
  - destruct (Hybrid_reachable_inv s Hreach) as [[Hp Hc Hne] _].
    destruct (decide (delta_of direction = Undefined)) as [Hd|Hd].
    { rewrite Hybrid_move_undefined in Hmove by done.
      by injection Hmove as <-. }
    destruct (Hybrid_move_registered s perm direction name)
      as (position & cell & _ & _ & _ & _ & Hm); [done..|].
    cbn zeta in Hm. set (s1 := landed _ _ _) in Hm.
    destruct (Nat.eqb_spec (size (coins (Hybrid.database s1))) 0)
      as [Hz|Hnz]; rewrite Hm in Hmove; injection Hmove as <-.
    + destruct (Hybrid_placeCoins_batch perm s1 Hz) as [Hdb Hr].
      split.
      * by exists perm.
      * by rewrite Hdb, Hr.
      * rewrite Hybrid_placeCoins_database.
        destruct (Hybrid_placeCoins_redis perm s1) as (_ & _ & _ & ->).
        apply Hs.
    + split; [done| |done]. cbn.
      etrans; [apply delete_subseteq|done].
Qed.

(** ** What a move leaves alone, and how moves compose *)

Lemma add_assign_frame name value (o o1 : obj Z) other :
  add_assign name value o = Some o1 → other ≠ name →
  obj_get other o1 = obj_get other o.
Proof.
  unfold add_assign. intros H Hother.
  destruct (obj_lookup name o); [|by case_match; simplify_eq|done].
  injection H as <-. rewrite obj_get_assign, decide_False; [done|].
  by intros [-> _].
Qed.

Lemma Hybrid_move_frame perm direction name s s' :
  Hybrid.move perm direction name s = Normal s' →
  usednames (Hybrid.database s') = usednames (Hybrid.database s) ∧
  (∀ key, key ≠ "player:" +:+ name →
     obj_get key (players (Hybrid.database s'))
     = obj_get key (players (Hybrid.database s))) ∧
  (∀ other, other ≠ name →
     obj_get other (scores (Hybrid.database s'))
     = obj_get other (scores (Hybrid.database s))).
Proof.
  intros Hmove. split; [by eapply Hybrid_move_usednames|].
  unfold Hybrid.move in Hmove.
  repeat case_match; simplify_eq; rewrite ?Hybrid_placeCoins_database;
    cbn [GameJs.placeCoins Hybrid.database players scores];
    (split; [intros key Hkey|intros other Hother]);
    rewrite ?obj_get_set_ne by done; try done.
  all: by eapply add_assign_frame.
Qed.

Lemma delta_of_opposite direction delta :
  delta_of direction = Own delta →
  delta_of (opposite direction) = Own (- delta.1, - delta.2).
Proof.
  intros Hd%delta_of_own.
  repeat (apply elem_of_cons in Hd as [[= -> ->]|Hd]; [done|]).
  by apply elem_of_nil in Hd.
Qed.

(** A move of a registered player in a direction that has an array, from a
    cell of the board. *)
Lemma Hybrid_move_step s perm direction name delta x y :
  db_inv (Hybrid.database s) → name ∈ usednames (Hybrid.database s) →
  delta_of direction = Own delta →
  obj_get ("player:" +:+ name) (players (Hybrid.database s))
    = Some (cell_key x y) →
  0 ≤ x ≤ 63 ∧ 0 ≤ y ≤ 63 ∧
  let cell := cell_key (clamp (x + delta.1) 0 63) (clamp (y + delta.2) 0 63) in
  let s1 := landed name cell s in
  Hybrid.move perm direction name s
  = Normal (if (size (coins (Hybrid.database s1)) =? 0)%nat
            then Hybrid.placeCoins perm s1 else s1).
Proof.
  intros [Hp Hc Hne] Hname Hdelta Hpos.
  destruct (Hybrid_move_registered s perm direction name)
    as (position & cell & Hpos0 & Hstored & Htarget & _ & Hm);
    [done|done|done|by rewrite Hdelta|].
  rewrite Hpos in Hpos0. injection Hpos0 as <-.
  rewrite Hdelta, target_own in Htarget. injection Htarget as <-.
  destruct Hstored as [(x0 & y0 & [-> ->]%cell_key_inj & Hx & Hy)|E];
    [|by apply cell_key_not_NaN in E].
  unfold WIDTH, HEIGHT in *. change (64 - 1) with 63 in *. done.
Qed.

(** A move of a registered player in a direction that names a member of
    [Object.prototype], and any move of a player whose position is the
    string of two [NaN]: the position is that string afterwards, and
    nothing is collected. *)
Lemma Hybrid_move_NaN s perm direction name position :
  db_inv (Hybrid.database s) → name ∈ usednames (Hybrid.database s) →
  delta_of direction ≠ Undefined →
  obj_get ("player:" +:+ name) (players (Hybrid.database s)) = Some position →
  delta_of direction = Inherited ∨ position = "NaN,NaN" →
  Hybrid.move perm direction name s
  = Normal
      {| Hybrid.database :=
           {| scores := scores (Hybrid.database s);
              usednames := usednames (Hybrid.database s);
              coins := coins (Hybrid.database s);
              players :=
                obj_set ("player:" +:+ name) "NaN,NaN"
                  (players (Hybrid.database s)) |};
         Hybrid.redis := Hybrid.redis s |}.
Proof.
  intros [Hp Hc Hne] Hname Hdelta Hpos Hcase.
  destruct (Hybrid_move_registered s perm direction name)
    as (position0 & cell & Hpos0 & Hstored & Htarget & _ & Hm); [done..|].
  rewrite Hpos in Hpos0. injection Hpos0 as <-.
  assert (cell = "NaN,NaN") as ->.
  { destruct Hcase as [Hd| ->].
    - rewrite Hd in Htarget.
      destruct Hstored as [(x & y & -> & _)| ->].
      + rewrite target_inherited in Htarget. by injection Htarget.
      + rewrite target_NaN in Htarget. by injection Htarget.
    - rewrite target_NaN in Htarget. by injection Htarget. }
  rewrite Hm. cbn zeta. unfold landed.
  rewrite (coins_on_board_NaN _ Hc), (delete_id _ _ (coins_on_board_NaN _ Hc)).
  cbn [Hybrid.database coins].
  by destruct (Nat.eqb_spec (size (coins (Hybrid.database s))) 0)
    as [?%map_size_empty_inv|_].
Qed.

Lemma landed_position name cell perm s :
  let s1 := landed name cell s in
  obj_get ("player:" +:+ name)
    (players (Hybrid.database
       (if (size (coins (Hybrid.database s1)) =? 0)%nat
        then Hybrid.placeCoins perm s1 else s1)))
  = Some cell.
Proof.
  cbn zeta. destruct (size _ =? 0)%nat; [rewrite Hybrid_placeCoins_database|];
    cbn; apply obj_get_set_eq.
Qed.

Lemma landed_scores name cell perm s :
  let s1 := landed name cell s in
  scores (Hybrid.database
    (if (size (coins (Hybrid.database s1)) =? 0)%nat
     then Hybrid.placeCoins perm s1 else s1))
  = match coins (Hybrid.database s) !! cell with
    | Some value => credited name value (scores (Hybrid.database s))
    | None => scores (Hybrid.database s)
    end.
Proof.
  cbn zeta. by destruct (size _ =? 0)%nat; [rewrite Hybrid_placeCoins_database|].
Qed.

Lemma landed_coins name cell perm s :
  let s1 := landed name cell s in
  coins (Hybrid.database
    (if (size (coins (Hybrid.database s1)) =? 0)%nat
     then Hybrid.placeCoins perm s1 else s1))
  = if decide (delete cell (coins (Hybrid.database s)) = ∅) then batch perm
    else delete cell (coins (Hybrid.database s)).
Proof.
  cbn zeta.
  assert (coins (Hybrid.database (landed name cell s))
          = delete cell (coins (Hybrid.database s))) as Hcoins by done.
  destruct (Nat.eqb_spec (size (coins (Hybrid.database (landed name cell s)))) 0)
    as [Hz|Hnz].
  - rewrite Hybrid_placeCoins_database, placeCoins_batch by done.
    apply map_size_empty_inv in Hz. rewrite Hcoins in Hz.
    by rewrite decide_True.
  - apply map_size_non_empty_iff in Hnz. rewrite Hcoins in Hnz.
    by rewrite decide_False.
Qed.

Lemma Hybrid_move_position s perm direction name delta x y :
  Hybrid.reachable s → name ∈ usednames (Hybrid.database s) →
  delta_of direction = Own delta →
  obj_get ("player:" +:+ name) (players (Hybrid.database s))
    = Some (cell_key x y) →
  0 ≤ x ≤ 63 ∧ 0 ≤ y ≤ 63 ∧
  ∃ s',
    Hybrid.move perm direction name s = Normal s' ∧
    obj_get ("player:" +:+ name) (players (Hybrid.database s'))
      = Some (cell_key (clamp (x + delta.1) 0 63) (clamp (y + delta.2) 0 63)).
Proof.
  intros Hreach Hname Hdelta Hpos.
  destruct (Hybrid_reachable_inv s Hreach) as [Hinv _].
  destruct (Hybrid_move_step s perm direction name delta x y)
    as (Hx & Hy & Hm); [done..|].
  split; [done|]. split; [done|].
  eexists. split; [exact Hm|]. apply landed_position.
Qed.

(** A move of a registered player whose name is not [__proto__] adds to
    the score the value of the coin it collects, if any. *)
Lemma Hybrid_move_score s perm direction name :
  Hybrid.reachable s → name ∈ usednames (Hybrid.database s) →
  name ≠ "__proto__" →
  ∃ score gain s',
    obj_get name (scores (Hybrid.database s)) = Some score ∧
    Hybrid.move perm direction name s = Normal s' ∧
    obj_get name (scores (Hybrid.database s')) = Some (score + gain) ∧
    gain ∈ [0; 1; 2; 5; 10].
Proof.
  intros Hreach Hname Hproto.
  destruct (Hybrid_reachable_inv s Hreach) as [[Hp Hc Hne] _].
  destruct (inv_score _ Hp name Hname Hproto) as [score Hscore].
  exists score.
  destruct (decide (delta_of direction = Undefined)) as [Hd|Hd].
  { exists 0, s. rewrite Hybrid_move_undefined, Z.add_0_r by done.
    split_and!; [done..|left]. }
  destruct (Hybrid_move_registered s perm direction name)
    as (position & cell & _ & _ & _ & _ & Hm); [done..|].
  exists (default 0 (coins (Hybrid.database s) !! cell)).
  eexists. split; [done|]. split; [exact Hm|].
  rewrite landed_scores.
  destruct (coins (Hybrid.database s) !! cell) as [value|] eqn:Hcoin; cbn.
  - rewrite credited_get, decide_True, Hscore by done. split; [done|].
    destruct (Hc _ _ Hcoin) as [_ Hv]. by right.
  - rewrite Z.add_0_r. split; [done|left].
Qed.

(** ** What [state] shows of the players *)

Lemma player_key_chars name :
  "player:" +:+ name
  = String "p" (String "l" (String "a" (String "y" (String "e" (String "r"
      (String ":" name)))))).
Proof. reflexivity. Qed.

Lemma array_index_player name : array_index ("player:" +:+ name) = None.
Proof.
  rewrite player_key_chars. unfold array_index, NilZero.uint_of_string.
  cbn [NilEmpty.uint_of_string].
  by destruct (NilEmpty.uint_of_string _).
Qed.

Lemma startsWith_player name : startsWith "player:" ("player:" +:+ name) = true.
Proof. rewrite player_key_chars. unfold startsWith. cbn. by destruct name. Qed.

Lemma entries_no_index {V : Type} (o : obj V) :
  (∀ p, p ∈ o → array_index p.1 = None) → entries o = o.
Proof.
  intros Hno. unfold entries.
  assert (filter (λ p : string * V, is_Some (array_index p.1)) o = []) as ->.
  { destruct (filter _ o) as [|p l] eqn:E; [done|].
    assert (p ∈ filter (λ p : string * V, is_Some (array_index p.1)) o) as Hp
      by (rewrite E; left).
    apply list_elem_of_filter in Hp as [[i Hi] Hp].
    by rewrite (Hno p Hp) in Hi. }
  cbn [app merge_sort]. unfold obj in *.
  change (merge_sort index_le [] ++ ?l) with l.
  induction o as [|p o IH]; [done|].
  rewrite filter_cons_True.
  - f_equal. apply IH. intros q Hq. apply Hno. by right.
  - rewrite (Hno p) by left. by intros [].
Qed.

Lemma substring_whole s : String.substring 0 (String.length s) s = s.
Proof. induction s as [|c s IH]; cbn; [done|]. by rewrite IH. Qed.

Lemma substring_from_player name : substring_from 7 ("player:" +:+ name) = name.
Proof.
  rewrite player_key_chars. unfold substring_from.
  cbn [String.length String.substring Nat.sub]. rewrite Nat.sub_0_r.
  apply substring_whole.
Qed.

Lemma obj_get_elem_of {V : Type} (k : string) (v : V) (o : obj V) :
  obj_get k o = Some v → (k, v) ∈ o.
Proof.
  induction o as [|[k' v'] o IH]; cbn; [done|].
  destruct (String.eqb_spec k k') as [->|Hne].
  - intros [= ->]. left.
  - intros H. right. auto.
Qed.

Lemma obj_get_NoDup {V : Type} (k : string) (v : V) (o : obj V) :
  NoDup o.*1 → (k, v) ∈ o → obj_get k o = Some v.
Proof.
  induction o as [|[k' v'] o IH]; cbn.
  - by intros _ ?%elem_of_nil.
  - intros [Hk' Hnd]%NoDup_cons [[= -> ->]|Hin]%elem_of_cons.
    + by rewrite String.eqb_refl.
    + destruct (String.eqb_spec k k') as [->|Hne]; [|auto].
      destruct Hk'. apply list_elem_of_fmap. by exists (k', v).
Qed.

Lemma filter_all {A : Type} (P : A → Prop) `{!∀ x, Decision (P x)} (l : list A) :
  (∀ x, x ∈ l → P x) → filter P l = l.
Proof.
  induction l as [|x l IH]; [done|]. intros Hall.
  rewrite filter_cons_True by (apply Hall; left).
  f_equal. apply IH. intros y Hy. apply Hall. by right.
Qed.

(** In a state the server reaches, the player keys are the keys
    [player:<name>] of the used names, each stored once. *)
Lemma reachable_player_keys s key position :
  Hybrid.reachable s →
  (key, position) ∈ players (Hybrid.database s) →
  ∃ name, key = "player:" +:+ name ∧ name ∈ usednames (Hybrid.database s) ∧
          obj_get key (players (Hybrid.database s)) = Some position.
Proof.
  intros Hreach Hin.
  destruct (Hybrid_reachable_inv s Hreach) as [[[_ _ _ Hpos] _ _] _].
  destruct (Hybrid_reachable_ledger s Hreach) as [Hnd _ _ _ _].
  pose proof (obj_get_NoDup _ _ _ Hnd Hin) as Hget.
  destruct (Hpos _ _ Hget) as [_ (name & -> & Hname)]. eauto.
Qed.

Lemma Hybrid_state_shows s :
  Hybrid.reachable s →
  (length (scores (Hybrid.database s)) < 64)%nat →
  ∃ view,
    Hybrid.state s = Normal view ∧
    v_coins view = coins (Hybrid.database s) ∧
    v_scores view = entries (scores (Hybrid.database s)) ∧
    v_positions view
      = (λ kv : string * string, (substring_from 7 kv.1, kv.2))
          <$> players (Hybrid.database s).
Proof.
  intros Hreach Hlen. unfold Hybrid.state.
  rewrite (array_sort_nonneg _ score_comparefn_nonneg)
    by (by rewrite entries_length).
  eexists. split; [done|]. cbn. split; [done|]. split; [done|].
  rewrite entries_no_index.
  - unfold obj. rewrite filter_all; [done|].
    intros [key position] Hin.
    destruct (reachable_player_keys s key position Hreach Hin) as (name & -> & _).
    apply startsWith_player.
  - intros [key position] Hin.
    destruct (reachable_player_keys s key position Hreach Hin) as (name & -> & _).
    apply array_index_player.
Qed.

(** ** [placeCoins] on any field *)

Lemma forEach_place_lookup_other l i (c : gmap string Z) k :
  k ∉ coin_index <$> l → forEach place l i c !! k = c !! k.
Proof.
  revert i c. induction l as [|p l IH]; intros i c Hk; [done|].
  rewrite fmap_cons, not_elem_of_cons in Hk. destruct Hk as [Hp Hl].
  cbn [forEach]. rewrite IH by done. unfold place. by rewrite lookup_insert_ne.
Qed.

Lemma forEach_place_lookup l i (c : gmap string Z) j p :
  NoDup l → l !! j = Some p →
  forEach place l i c !! coin_index p = Some (coinValue (i + j)).
Proof.
  revert i c j. induction l as [|q l IH]; intros i c j Hnd Hj; [done|].
  apply NoDup_cons in Hnd as [Hq Hnd]. cbn [forEach].
  destruct j as [|j]; cbn in Hj.
  - injection Hj as ->. rewrite forEach_place_lookup_other.
    + unfold place. by rewrite lookup_insert_eq, Nat.add_0_r.
    + intros (q & ->%coin_index_inj & Hin)%list_elem_of_fmap. done.
  - rewrite (IH _ _ j) by done. do 2 f_equal. lia.
Qed.

(** ** The variant on Redis alone *)

Lemma RedisOnly_placeCoins_fields perm r :
  r_coins (RedisOnly.placeCoins perm r) = batch perm ∧
  r_usednames (RedisOnly.placeCoins perm r) = r_usednames r ∧
  r_strings (RedisOnly.placeCoins perm r) = r_strings r ∧
  r_scores (RedisOnly.placeCoins perm r) = r_scores r.
Proof.
  unfold RedisOnly.placeCoins, batch.
  generalize (take NUM_COINS perm). intros l. generalize 0%nat.
  destruct r as [u st sc rc]. cbn [r_usednames r_strings r_scores].
  generalize (∅ : gmap string Z). clear rc.
  induction l as [|p l IH]; intros c i; [done|].
  cbn [forEach]. apply IH.
Qed.

(** * The claims *)

(** C1, on the code: a client registers under the name [__proto__] and
    stands on the cell [2,0], next to the coin of the cell [1,0], worth 2;
    the server reaches this state.  The move to the left of that player
    returns: the player stands on the cell [1,0] and the coin is gone from
    the field, which holds 99 coins, but no score has been credited, to
    that player or to any other: [scores] has no property for the name
    and [state] shows no score. *)
Theorem move_does_not_credit_proto :
  Hybrid.reachable demo_proto ∧
  "__proto__" ∈ usednames (Hybrid.database demo_proto) ∧
  players (Hybrid.database demo_proto) = [("player:__proto__", "2,0")] ∧
  scores (Hybrid.database demo_proto) = [] ∧
  coins (Hybrid.database demo_proto) !! "1,0" = Some 2 ∧
  size (coins (Hybrid.database demo_proto)) = 100%nat ∧
  delta_of "L" = Own (-1, 0) ∧
  Hybrid.move demo_perm "L" "__proto__" demo_proto = Normal demo_proto_moved ∧
  players (Hybrid.database demo_proto_moved) = [("player:__proto__", "1,0")] ∧
  coins (Hybrid.database demo_proto_moved) !! "1,0" = None ∧
  size (coins (Hybrid.database demo_proto_moved)) = 99%nat ∧
  scores (Hybrid.database demo_proto_moved) = [] ∧
  shown_scores (Hybrid.state demo_proto_moved) = Some [].
Proof.
  split; [exact demo_proto_reachable|].
  split; [exact demo_proto_registered|].
  split; [vm_compute; reflexivity|].
  split; [vm_compute; reflexivity|].
  split; [vm_compute; reflexivity|].
  split; [vm_compute; reflexivity|].
  split; [reflexivity|].
  split; [exact demo_proto_move|].
  split; [vm_compute; reflexivity|].
  split; [vm_compute; reflexivity|].
  split; [vm_compute; reflexivity|].
  split; vm_compute; reflexivity.
Qed.

(** C2: [placeCoins] is called when the module is loaded, on the empty
    database, and by [move] under the guard
    [Object.keys(database.coins).length === 0]; these are its only calls.
    After such a call the field holds exactly 100 coins, worth 1 (50 of
    them), 2 (25), 5 (20) and 10 (5), the value going by the rank of the
    cell among the first 100 entries of the permutation: ranks 0-49 are
    worth 1, 50-74 are worth 2, 75-94 are worth 5, 95-99 are worth 10.  In
    the second variant the Redis hash holds the same batch. *)
Theorem placeCoins_places_a_batch perm db r :
  permutation_spec (Z.to_nat (WIDTH * HEIGHT)) perm →
  size (coins db) = 0%nat →
  fresh_batch perm (coins (GameJs.placeCoins perm db)) ∧
  fresh_batch perm
    (coins (Hybrid.database (Hybrid.placeCoins perm (Hybrid.mkState db r)))) ∧
  fresh_batch perm
    (r_coins (Hybrid.redis (Hybrid.placeCoins perm (Hybrid.mkState db r)))).
Proof.
  intros Hperm Hempty.
  destruct (Hybrid_placeCoins_redis perm (Hybrid.mkState db r)) as (-> & _).
  rewrite Hybrid_placeCoins_database. cbn [Hybrid.database].
  rewrite placeCoins_batch by done.
  split_and!; by apply forEach_place_fresh.
Qed.

Lemma placeCoins_places_a_batch_witness :
  permutation_spec (Z.to_nat (WIDTH * HEIGHT)) demo_perm ∧
  size (coins empty_database) = 0%nat ∧
  fresh_batch demo_perm (coins (GameJs.placeCoins demo_perm empty_database)) ∧
  fresh_batch demo_perm
    (coins (Hybrid.database
       (Hybrid.placeCoins demo_perm (Hybrid.mkState empty_database demo_redis)))) ∧
  fresh_batch demo_perm
    (r_coins (Hybrid.redis
       (Hybrid.placeCoins demo_perm (Hybrid.mkState empty_database demo_redis)))).
Proof.
  split; [exact demo_perm_spec|]. split; [reflexivity|].
  exact (placeCoins_places_a_batch demo_perm empty_database demo_redis
           demo_perm_spec eq_refl).
Defined.

(** C3, on the code: the empty name and a name of 36 characters are
    welcomed and registered, right after the module is loaded, by
    [addPlayer] of [src/unnamed/part_001] and by [addPlayer] of
    [src/unnamed/part_000], whose length test lets every name through;
    [game.js], which tests no length, registers them too. *)
Theorem addPlayer_welcomes_invalid_names :
  let s := Hybrid.loaded demo_perm demo_redis in
  let db := GameJs.loaded demo_perm (10, 10) (2, 0) in
  let long := "0123456789abcdefghijklmnopqrstuvwxyz" in
  String.length "" = 0%nat ∧ String.length long = 36%nat ∧
  ((Hybrid.addPlayer (1, 1) (2, 2) "" s).1 = Welcome ∧
   "" ∈ usednames (Hybrid.database (Hybrid.addPlayer (1, 1) (2, 2) "" s).2)) ∧
  ((Hybrid.addPlayer (1, 1) (2, 2) long s).1 = Welcome ∧
   long ∈ usednames (Hybrid.database (Hybrid.addPlayer (1, 1) (2, 2) long s).2)) ∧
  ((RedisOnly.addPlayer (1, 1) "" demo_redis).1 = Welcome ∧
   "" ∈ r_usednames (RedisOnly.addPlayer (1, 1) "" demo_redis).2) ∧
  ((RedisOnly.addPlayer (1, 1) long demo_redis).1 = Welcome ∧
   long ∈ r_usednames (RedisOnly.addPlayer (1, 1) long demo_redis).2) ∧
  ((GameJs.addPlayer (1, 1) "" db).1 = true ∧
   "" ∈ usednames (GameJs.addPlayer (1, 1) "" db).2) ∧
  ((GameJs.addPlayer (1, 1) long db).1 = true ∧
   long ∈ usednames (GameJs.addPlayer (1, 1) long db).2).
Proof.
  intros s db long.
  assert (∀ name, name ∉ r_usednames (Hybrid.redis s)) as Hfresh.
  { intros name. unfold s, Hybrid.loaded.
    destruct (Hybrid_placeCoins_redis demo_perm
                (Hybrid.mkState empty_database demo_redis)) as (_ & -> & _).
    apply not_elem_of_empty. }
  assert (∀ name, name ≠ "alice" → name ≠ "bob" → name ∉ usednames db)
    as Hdb.
  { intros name Ha Hb. unfold db. rewrite GameJs_loaded_usednames.
    rewrite !elem_of_union, !elem_of_singleton, elem_of_empty. tauto. }
  split; [reflexivity|]. split; [reflexivity|].
  split; [apply Hybrid_addPlayer_fresh, Hfresh|].
  split; [apply Hybrid_addPlayer_fresh, Hfresh|].
  split; [apply RedisOnly_addPlayer_fresh, not_elem_of_empty|].
  split; [apply RedisOnly_addPlayer_fresh, not_elem_of_empty|].
  split; by apply GameJs_addPlayer_fresh, Hdb.
Qed.

(** C4, on the code: with [alice] on the cell [10,10] and [bob] on [2,0],
    the move to the left that the session of [bob] asks of [game.js] moves
    [alice] and leaves [bob] where he is; the same request under the name
    [bob] in the second variant moves [bob], who collects the coin of the
    cell [1,0]. *)
Theorem game_js_move_moves_alice :
  let db := GameJs.loaded demo_perm (10, 10) (2, 0) in
  players db = [("player:alice", "10,10"); ("player:bob", "2,0")] ∧
  (∃ db',
     GameJs.move demo_perm "L" db = Normal db' ∧
     players db' = [("player:alice", "9,10"); ("player:bob", "2,0")] ∧
     scores db' = [("alice", 0); ("bob", 0)]) ∧
  (∃ s',
     Hybrid.move demo_perm "L" "bob" demo_state = Normal s' ∧
     players (Hybrid.database s')
       = [("player:alice", "10,10"); ("player:bob", "1,0")] ∧
     scores (Hybrid.database s') = [("alice", 0); ("bob", 2)]).
Proof.
  intros db. split; [vm_compute; reflexivity|]. split.
  - assert (returns (GameJs.move demo_perm "L" db) = true) as Hr
      by (vm_compute; reflexivity).
    destruct (GameJs.move demo_perm "L" db) as [db'| |] eqn:Hm;
      [|discriminate..].
    exists db'. split; [reflexivity|].
    assert (Normal db' = GameJs.move demo_perm "L" db) as E
      by (symmetry; exact Hm).
    split.
    + change (players db')
        with (match Normal db' with Normal d => players d | _ => [] end).
      rewrite E. vm_compute. reflexivity.
    + change (scores db')
        with (match Normal db' with Normal d => scores d | _ => [] end).
      rewrite E. vm_compute. reflexivity.
  - assert (returns (Hybrid.move demo_perm "L" "bob" demo_state) = true) as Hr
      by (vm_compute; reflexivity).
    destruct (Hybrid.move demo_perm "L" "bob" demo_state) as [s'| |] eqn:Hm;
      [|discriminate..].
    exists s'. split; [reflexivity|].
    assert (Normal s' = Hybrid.move demo_perm "L" "bob" demo_state) as E
      by (symmetry; exact Hm).
    split.
    + change (players (Hybrid.database s'))
        with (match Normal s' with
              | Normal s => players (Hybrid.database s) | _ => [] end).
      rewrite E. vm_compute. reflexivity.
    + change (scores (Hybrid.database s'))
        with (match Normal s' with
              | Normal s => scores (Hybrid.database s) | _ => [] end).
      rewrite E. vm_compute. reflexivity.
Qed.

(** C5, on the code: [alice] and [bob] register in this order and [bob]
    collects a coin worth 2; the server reaches this state.  The comparator
    of [state] answers 0 for ([bob], [alice]) and 1 for ([alice], [bob]): it
    is not a consistent comparator, and the order of the sorted array is
    the engine's choice.  With the sort of V8 both variants of [state] show
    the score of [alice], 0, before the score of [bob], 2: the scores are
    not in descending order. *)
Theorem state_scores_not_descending :
  Hybrid.reachable demo_scored ∧
  scores (Hybrid.database demo_scored) = [("alice", 0); ("bob", 2)] ∧
  score_comparefn ("bob", 2) ("alice", 0) = 0 ∧
  score_comparefn ("alice", 0) ("bob", 2) = 1 ∧
  shown_scores (Hybrid.state demo_scored) = Some [("alice", 0); ("bob", 2)] ∧
  shown_scores (GameJs.state (Hybrid.database demo_scored))
    = Some [("alice", 0); ("bob", 2)] ∧
  ¬ Sorted (λ p q : string * Z, q.2 ≤ p.2) [("alice", 0); ("bob", 2)].
Proof.
  split_and!.
  - exact demo_scored_reachable.
  - vm_compute. reflexivity.
  - reflexivity.
  - reflexivity.
  - vm_compute. reflexivity.
  - vm_compute. reflexivity.
  - intros Hsorted. apply Sorted_inv in Hsorted as [_ Hhd].
    apply HdRel_inv in Hhd. cbn in Hhd. lia.
Qed.

(** C6, on the code: with [alice] on the cell [10,10] and [bob] on [2,0],
    [bob] asks for a move in the direction [constructor], the name of a
    member of [Object.prototype], which the test [if (delta)] lets
    through.  The move returns and the position of [bob] is the string
    [NaN,NaN], which is the key of no cell; the server has reached that
    state, and a further move of [bob] upwards leaves the position as it
    is.  [move] of [game.js] does the same to [alice] in the direction
    [toString]. *)
Theorem positions_leave_the_board :
  Hybrid.reachable demo_state ∧
  "bob" ∈ usednames (Hybrid.database demo_state) ∧
  players (Hybrid.database demo_state)
    = [("player:alice", "10,10"); ("player:bob", "2,0")] ∧
  delta_of "constructor" = Inherited ∧
  Hybrid.move demo_perm "constructor" "bob" demo_state = Normal demo_lost ∧
  Hybrid.reachable demo_lost ∧
  players (Hybrid.database demo_lost)
    = [("player:alice", "10,10"); ("player:bob", "NaN,NaN")] ∧
  ¬ on_board "NaN,NaN" ∧
  (∃ s',
     Hybrid.move demo_perm "U" "bob" demo_lost = Normal s' ∧
     players (Hybrid.database s')
       = [("player:alice", "10,10"); ("player:bob", "NaN,NaN")]) ∧
  GameJs.reachable demo_js ∧
  delta_of "toString" = Inherited ∧
  (∃ db',
     GameJs.move demo_perm "toString" demo_js = Normal db' ∧
     players db' = [("player:alice", "NaN,NaN"); ("player:bob", "2,0")]).
Proof.
  split; [exact demo_state_reachable|].
  split; [exact demo_bob_registered|].
  split; [vm_compute; reflexivity|].
  split; [reflexivity|].
  split; [exact demo_lost_move|].
  split; [exact demo_lost_reachable|].
  split; [vm_compute; reflexivity|].
  split; [exact on_board_not_NaN|].
  split.
  { assert (returns (Hybrid.move demo_perm "U" "bob" demo_lost) = true) as Hr
      by (vm_compute; reflexivity).
    destruct (Hybrid.move demo_perm "U" "bob" demo_lost) as [s'| |] eqn:Hm;
      [|discriminate..].
    exists s'. split; [reflexivity|].
    change (players (Hybrid.database s'))
      with (match Normal s' with
            | Normal s => players (Hybrid.database s) | _ => [] end).
    rewrite <- Hm. vm_compute. reflexivity. }
  split; [apply GameJs.reach_loaded; [exact demo_perm_spec|by vm_compute..]|].
  split; [reflexivity|].
  assert (returns (GameJs.move demo_perm "toString" demo_js) = true) as Hr
    by (vm_compute; reflexivity).
  destruct (GameJs.move demo_perm "toString" demo_js) as [db'| |] eqn:Hm;
    [|discriminate..].
  exists db'. split; [reflexivity|].
  change (players db')
    with (match Normal db' with Normal d => players d | _ => [] end).
  rewrite <- Hm. vm_compute. reflexivity.
Qed.

(** C7: the coin field is never empty in a state the server reaches; and
    when the coin a move collects is the last one, the state that move
    returns already holds a new batch of exactly 100 coins, which is what
    the next [state()] shows.  This holds of [move] of the second variant
    and of [move] of [game.js]. *)
Theorem field_repopulated_within_move :
  (∀ s, Hybrid.reachable s → coins (Hybrid.database s) ≠ ∅) ∧
  (∀ db, GameJs.reachable db → coins db ≠ ∅) ∧
  (∀ s perm direction name delta x y,
     Hybrid.reachable s →
     permutation_spec (Z.to_nat (WIDTH * HEIGHT)) perm →
     name ∈ usednames (Hybrid.database s) →
     delta_of direction = Own delta →
     obj_get ("player:" +:+ name) (players (Hybrid.database s))
       = Some (cell_key x y) →
     is_Some (coins (Hybrid.database s)
                !! cell_key (clamp (x + delta.1) 0 63) (clamp (y + delta.2) 0 63)) →
     size (coins (Hybrid.database s)) = 1%nat →
     ∃ s',
       Hybrid.move perm direction name s = Normal s' ∧
       fresh_batch perm (coins (Hybrid.database s')) ∧
       ∀ view, Hybrid.state s' = Normal view → v_coins view = coins (Hybrid.database s')) ∧
  (∀ db perm direction delta x y,
     GameJs.reachable db →
     permutation_spec (Z.to_nat (WIDTH * HEIGHT)) perm →
     delta_of direction = Own delta →
     obj_get "player:alice" (players db) = Some (cell_key x y) →
     is_Some (coins db
                !! cell_key (clamp (x + delta.1) 0 63) (clamp (y + delta.2) 0 63)) →
     size (coins db) = 1%nat →
     ∃ db',
       GameJs.move perm direction db = Normal db' ∧
       fresh_batch perm (coins db') ∧
       ∀ view, GameJs.state db' = Normal view → v_coins view = coins db').
Proof.
  assert (∀ s perm direction name delta x y,
     db_inv (Hybrid.database s) →
     permutation_spec (Z.to_nat (WIDTH * HEIGHT)) perm →
     name ∈ usednames (Hybrid.database s) →
     delta_of direction = Own delta →
     obj_get ("player:" +:+ name) (players (Hybrid.database s))
       = Some (cell_key x y) →
     is_Some (coins (Hybrid.database s)
                !! cell_key (clamp (x + delta.1) 0 63) (clamp (y + delta.2) 0 63)) →
     size (coins (Hybrid.database s)) = 1%nat →
     ∃ s',
       Hybrid.move perm direction name s = Normal s' ∧
       fresh_batch perm (coins (Hybrid.database s'))) as Hlast.
  { intros s perm direction name delta x y Hinv Hperm Hname Hdelta Hpos
      [value Hcoin] Hsize.
    destruct (Hybrid_move_step s perm direction name delta x y)
      as (_ & _ & Hm); [done..|].
    cbn zeta in Hm. set (s1 := landed _ _ _) in Hm.
    assert (size (coins (Hybrid.database s1)) = 0%nat) as Hz.
    { subst s1. cbn. rewrite map_size_delete, Hcoin, Hsize. done. }
    rewrite Hz in Hm. cbn [Nat.eqb] in Hm.
    eexists. split; [exact Hm|].
    rewrite Hybrid_placeCoins_database, placeCoins_batch by done.
    by apply forEach_place_fresh. }
  split_and!.
  - by intros s [[_ _ Hne] _]%Hybrid_reachable_inv.
  - by intros db [[_ _ Hne] _]%GameJs_reachable_inv.
  - intros s perm direction name delta x y Hreach Hperm Hname Hdelta Hpos
      Hcoin Hsize.
    destruct (Hybrid_reachable_inv s Hreach) as [Hinv _].
    destruct (Hlast s perm direction name delta x y) as (s' & Hm & Hfresh);
      [done..|].
    exists s'. split; [done|]. split; [done|].
    unfold Hybrid.state. intros view. by case_match; intros [= <-].
  - intros db perm direction delta x y Hreach Hperm Hdelta Hpos Hcoin Hsize.
    destruct (GameJs_reachable_inv db Hreach) as [Hinv Halice].
    destruct (Hlast (Hybrid.mkState db (mkRedis ∅ ∅ ∅ ∅)) perm direction
                "alice" delta x y) as (s' & Hm & Hfresh); [done..|].
    exists (Hybrid.database s'). split.
    + by rewrite (GameJs_move_alice perm direction db (mkRedis ∅ ∅ ∅ ∅)), Hm.
    + split; [done|].
      unfold GameJs.state. intros view. by case_match; intros [= <-].
Qed.

Lemma field_repopulated_within_move_witness :
  (∃ s',
     Hybrid.move demo_perm "D" "bob" demo_last_coin = Normal s' ∧
     fresh_batch demo_perm (coins (Hybrid.database s')) ∧
     ∀ view, Hybrid.state s' = Normal view → v_coins view = coins (Hybrid.database s')) ∧
  (∃ db',
     GameJs.move demo_perm "D" demo_js_last_coin = Normal db' ∧
     fresh_batch demo_perm (coins db') ∧
     ∀ view, GameJs.state db' = Normal view → v_coins view = coins db').
Proof.
  split.
  - refine (proj1 (proj2 (proj2 field_repopulated_within_move)) demo_last_coin
              demo_perm "D" "bob" (0, 1) 0 62 demo_last_coin_reachable
              demo_perm_spec _ eq_refl _ _ _).
    + apply (bool_decide_unpack _). vm_compute. exact I.
    + vm_compute. reflexivity.
    + exists 2. vm_compute. reflexivity.
    + vm_compute. reflexivity.
  - refine (proj2 (proj2 (proj2 field_repopulated_within_move))
              demo_js_last_coin demo_perm "D" (0, 1) 0 62
              demo_js_last_coin_reachable demo_perm_spec eq_refl _ _ _).
    + vm_compute. reflexivity.
    + exists 2. vm_compute. reflexivity.
    + vm_compute. reflexivity.
Defined.

(** C8: a batch is placed on 100 cells that are pairwise distinct, under
    100 pairwise distinct keys; and in every state the server reaches no two
    coins lie on the same cell. *)
Theorem coins_on_distinct_cells :
  (∀ perm,
     permutation_spec (Z.to_nat (WIDTH * HEIGHT)) perm →
     length (take NUM_COINS perm) = 100%nat ∧
     NoDup (coin_index <$> take NUM_COINS perm) ∧
     NoDup ((λ position, read_point (coin_index position)) <$> take NUM_COINS perm) ∧
     one_coin_per_cell (batch perm)) ∧
  (∀ s, Hybrid.reachable s → one_coin_per_cell (coins (Hybrid.database s))) ∧
  (∀ db, GameJs.reachable db → one_coin_per_cell (coins db)).
Proof.
  split_and!.
  - intros perm Hperm. unfold NUM_COINS, batch.
    destruct (take_permutation perm 100 Hperm) as (Hlen & Hnd & _); [lia|].
    split_and!; [done| | |].
    + apply (NoDup_fmap_2_strong _); [|done].
      intros p q _ _. apply coin_index_inj.
    + apply (NoDup_fmap_2_strong _); [|done].
      intros p q _ _ E. apply coin_index_inj.
      unfold coin_index in *. rewrite !read_point_cell_key in E.
      by injection E as -> ->.
    + by apply coins_on_board_one_per_cell, forEach_place_on_board.
  - intros s [[_ Hc _] _]%Hybrid_reachable_inv.
    by apply coins_on_board_one_per_cell.
  - intros db [[_ Hc _] _]%GameJs_reachable_inv.
    by apply coins_on_board_one_per_cell.
Qed.

Lemma coins_on_distinct_cells_witness :
  (length (take NUM_COINS demo_perm) = 100%nat ∧
   NoDup (coin_index <$> take NUM_COINS demo_perm) ∧
   NoDup ((λ position, read_point (coin_index position))
            <$> take NUM_COINS demo_perm) ∧
   one_coin_per_cell (batch demo_perm)) ∧
  one_coin_per_cell (coins (Hybrid.database demo_last_coin)).
Proof.
  split.
  - exact (proj1 coins_on_distinct_cells demo_perm demo_perm_spec).
  - exact (proj1 (proj2 coins_on_distinct_cells) demo_last_coin
             demo_last_coin_reachable).
Defined.

(** C9, as the code has it: [move] under a name that is not registered
    changes nothing.  When the direction finds something in the table of
    directions, which the four directions and the names of the members of
    [Object.prototype] do, it raises a [TypeError] where it reads the
    position of the player; with any other direction it returns. *)
Theorem move_unknown_player s perm direction name :
  Hybrid.reachable s →
  name ∉ usednames (Hybrid.database s) →
  Hybrid.move perm direction name s
  = (if decide (direction ∈ ["U"; "R"; "D"; "L"] ++ Object_prototype)
     then TypeError s else Normal s).
Proof.
  intros [[Hp _ _] _]%Hybrid_reachable_inv Hname.
  rewrite <- (decide_ext _ _ _ _ (delta_of_found direction)).
  unfold Hybrid.move.
  destruct (delta_of direction) as [d| |] eqn:Hd.
  - rewrite decide_True by done.
    by rewrite (unknown_player_no_key _ _ Hp Hname).
  - rewrite decide_True by done.
    by rewrite (unknown_player_no_key _ _ Hp Hname).
  - by rewrite decide_False by (by intros []).
Qed.

Lemma move_unknown_player_witness :
  Hybrid.move demo_perm "constructor" "mallory" demo_state
  = (if decide ("constructor" ∈ ["U"; "R"; "D"; "L"] ++ Object_prototype)
     then TypeError demo_state else Normal demo_state).
Proof.
  exact (move_unknown_player demo_state demo_perm "constructor" "mallory"
           demo_state_reachable demo_mallory_unknown).
Defined.

(** C9, as the claim has it, fails: the call does not return. *)
Lemma move_unknown_player_raises :
  ("mallory" ∉ usednames (Hybrid.database demo_state)) ∧
  Hybrid.move demo_perm "U" "mallory" demo_state = TypeError demo_state ∧
  ¬ (∃ s', Hybrid.move demo_perm "U" "mallory" demo_state = Normal s').
Proof.
  assert (Hybrid.move demo_perm "U" "mallory" demo_state = TypeError demo_state)
    as Hm.
  { destruct (Hybrid_reachable_inv _ demo_state_reachable) as [[Hp _ _] _].
    unfold Hybrid.move. change (delta_of "U") with (Own (0, -1) : property (Z * Z)).
    cbv beta iota.
    by rewrite (unknown_player_no_key _ _ Hp demo_mallory_unknown). }
  split_and!; [exact demo_mallory_unknown|exact Hm|].
  intros [s' Hs']. rewrite Hm in Hs'. discriminate.
Qed.

(** C10: [addPlayer] with a name that is already in use signals the
    rejection ([false] in [game.js], [badname] in the other variant) and
    leaves the whole state as it was.  The second variant looks the name up
    in the Redis set, which holds every name the database holds. *)
Theorem addPlayer_taken_changes_nothing :
  (∀ pt name db,
     name ∈ usednames db → GameJs.addPlayer pt name db = (false, db)) ∧
  (∀ pt pt' name s,
     name ∈ r_usednames (Hybrid.redis s) →
     Hybrid.addPlayer pt pt' name s = (Badname name, s)) ∧
  (∀ pt pt' name s,
     Hybrid.reachable s → name ∈ usednames (Hybrid.database s) →
     Hybrid.addPlayer pt pt' name s = (Badname name, s)).
Proof.
  assert (∀ pt pt' name s,
     name ∈ r_usednames (Hybrid.redis s) →
     Hybrid.addPlayer pt pt' name s = (Badname name, s)) as Hredis.
  { intros pt pt' name s Hname.
    by rewrite Hybrid_addPlayer_call, decide_True. }
  split_and!; [|done|].
  - intros pt name db Hname. unfold GameJs.addPlayer.
    by rewrite decide_True.
  - intros pt pt' name s [_ Hsub]%Hybrid_reachable_inv Hname.
    apply Hredis. by apply Hsub.
Qed.

Lemma addPlayer_taken_changes_nothing_witness :
  GameJs.addPlayer (4, 4) "alice" (GameJs.loaded demo_perm (10, 10) (2, 0))
    = (false, GameJs.loaded demo_perm (10, 10) (2, 0)) ∧
  Hybrid.addPlayer (4, 4) (5, 5) "bob" demo_state
    = (Badname "bob", demo_state).
Proof.
  split.
  - apply (proj1 addPlayer_taken_changes_nothing).
    apply (bool_decide_unpack _). vm_compute. exact I.
  - apply (proj2 (proj2 addPlayer_taken_changes_nothing)).
    + exact demo_state_reachable.
    + apply (bool_decide_unpack _). vm_compute. exact I.
Defined.

(** * Further properties *)

(** X1: the string [move] and [addPlayer] store for a point reads back, by
    [split(',')] and unary [+], as the numbers it was written from, negative
    ones too; so two points with the same string are the same point. *)
Theorem position_round_trip a b :
  split_comma (cell_key a b) = [number_toString a; number_toString b] ∧
  to_number (number_toString a) = Some a ∧
  read_point (cell_key a b) = Some (a, b) ∧
  ∀ a' b', cell_key a b = cell_key a' b' → a = a' ∧ b = b'.
Proof.
  split_and!.
  - unfold cell_key. rewrite split_comma_app by apply no_comma_number.
    by rewrite split_comma_no_comma by apply no_comma_number.
  - apply to_number_toString.
  - apply read_point_cell_key.
  - intros a' b'. apply cell_key_inj.
Qed.

Lemma position_round_trip_witness :
  split_comma (cell_key (-3) 12) = [number_toString (-3); number_toString 12] ∧
  to_number (number_toString (-3)) = Some (-3) ∧
  read_point (cell_key (-3) 12) = Some (-3, 12) ∧
  ∀ a' b', cell_key (-3) 12 = cell_key a' b' → -3 = a' ∧ 12 = b'.
Proof. exact (position_round_trip (-3) 12). Defined.

Lemma obj_set_set {V : Type} (k : string) (v v' : V) (o : obj V) :
  obj_set k v (obj_set k v' o) = obj_set k v o.
Proof.
  induction o as [|[k0 v0] o IH]; cbn.
  - by rewrite String.eqb_refl.
  - destruct (String.eqb_spec k k0) as [->|Hne]; cbn.
    + by rewrite String.eqb_refl.
    + destruct (String.eqb_spec k k0); [done|]. by rewrite IH.
Qed.

Lemma obj_assign_assign {V : Type} (k : string) (v v' : V) (o : obj V) :
  obj_assign k v (obj_assign k v' o) = obj_assign k v o.
Proof. unfold obj_assign. case_match; [done|]. apply obj_set_set. Qed.

(** X2: a second [addPlayer] under the same name, called after the reply
    to the first call has been handled, is rejected and leaves the state as
    the first call left it; in [game.js] every second call is such a call.
    In the variants that ask Redis, two calls can overlap: when Redis has
    answered both [sismember] before either reply is handled, and the name
    was free, both callers are welcomed, and the state is the one a single
    registration at the points of the second call gives: the second
    callback overwrites the position the first one stored. *)
Theorem addPlayer_twice pt1 pt1' pt2 pt2' name :
  (∀ db,
     GameJs.addPlayer pt2 name (GameJs.addPlayer pt1 name db).2
     = (false, (GameJs.addPlayer pt1 name db).2)) ∧
  (∀ s,
     Hybrid.addPlayer pt2 pt2' name (Hybrid.addPlayer pt1 pt1' name s).2
     = (Badname name, (Hybrid.addPlayer pt1 pt1' name s).2)) ∧
  (∀ r,
     RedisOnly.addPlayer pt2 name (RedisOnly.addPlayer pt1 name r).2
     = (Badname name, (RedisOnly.addPlayer pt1 name r).2)) ∧
  (∀ s,
     name ∉ r_usednames (Hybrid.redis s) →
     let res := sismember name (Hybrid.redis s) in
     let first := Hybrid.addPlayer_reply res pt1 pt1' name s in
     let second := Hybrid.addPlayer_reply res pt2 pt2' name first.2 in
     first.1 = Welcome ∧ second.1 = Welcome ∧
     second.2 = (Hybrid.addPlayer pt2 pt2' name s).2) ∧
  (∀ r,
     name ∉ r_usednames r →
     let res := sismember name r in
     let first := RedisOnly.addPlayer_reply res pt1 name r in
     let second := RedisOnly.addPlayer_reply res pt2 name first.2 in
     first.1 = Welcome ∧ second.1 = Welcome ∧
     second.2 = (RedisOnly.addPlayer pt2 name r).2).
Proof.
  split_and!.
  - intros db.
    assert (name ∈ usednames (GameJs.addPlayer pt1 name db).2) as Hin
      by apply GameJs_addPlayer_usednames.
    unfold GameJs.addPlayer at 1. by rewrite decide_True.
  - intros s.
    assert (name ∈ r_usednames (Hybrid.redis (Hybrid.addPlayer pt1 pt1' name s).2))
      as Hin.
    { rewrite Hybrid_addPlayer_call.
      case_decide; [done|]. cbn. apply elem_of_union_r. by apply elem_of_singleton. }
    by rewrite (Hybrid_addPlayer_call pt2), decide_True.
  - intros r.
    assert (name ∈ r_usednames (RedisOnly.addPlayer pt1 name r).2) as Hin.
    { rewrite RedisOnly_addPlayer_call.
      case_decide; [done|]. cbn. apply elem_of_union_r. by apply elem_of_singleton. }
    by rewrite (RedisOnly_addPlayer_call pt2), decide_True.
  - intros s Hname. cbn zeta. rewrite Hybrid_addPlayer_call.
    unfold sismember. rewrite !decide_False by done.
    split; [done|]. split; [done|].
    unfold Hybrid.addPlayer_reply.
    cbn [Z.eqb snd Hybrid.database Hybrid.redis usednames players scores coins
         r_usednames r_strings r_scores r_coins].
    rewrite obj_set_set, obj_assign_assign, !insert_insert_eq.
    by rewrite <- !(assoc_L (∪)), !(idemp_L (∪)).
  - intros r Hname. cbn zeta. rewrite RedisOnly_addPlayer_call.
    unfold sismember. rewrite !decide_False by done.
    split; [done|]. split; [done|].
    unfold RedisOnly.addPlayer_reply.
    cbn [Z.eqb snd r_usednames r_strings r_scores r_coins].
    rewrite !insert_insert_eq.
    by rewrite <- !(assoc_L (∪)), !(idemp_L (∪)).
Qed.

Lemma addPlayer_twice_witness :
  let s := Hybrid.loaded demo_perm demo_redis in
  let res := sismember "bob" (Hybrid.redis s) in
  let first := Hybrid.addPlayer_reply res (2, 0) (7, 7) "bob" s in
  let second := Hybrid.addPlayer_reply res (5, 5) (6, 6) "bob" first.2 in
  first.1 = Welcome ∧ second.1 = Welcome ∧
  second.2 = (Hybrid.addPlayer (5, 5) (6, 6) "bob" s).2.
Proof.
  apply (proj1 (proj2 (proj2 (proj2
           (addPlayer_twice (2, 0) (7, 7) (5, 5) (6, 6) "bob"))))
           (Hybrid.loaded demo_perm demo_redis)).
  unfold Hybrid.loaded.
  destruct (Hybrid_placeCoins_redis demo_perm
              (Hybrid.mkState empty_database demo_redis)) as (_ & -> & _).
  apply not_elem_of_empty.
Defined.

(** X3: [addPlayer] under a name that is not in use accepts it: the name
    is in use afterwards, the player stands on the point drawn, and the
    positions and scores of the other players and the coin field are as
    before.  The new player has a score of 0, unless the name is
    [__proto__]: then no score is stored and the scores are what they
    were.  [addPlayer] of [game.js] makes the same database of it. *)
Theorem addPlayer_registers pt pt' name s :
  name ∉ r_usednames (Hybrid.redis s) →
  let s' := (Hybrid.addPlayer pt pt' name s).2 in
  (Hybrid.addPlayer pt pt' name s).1 = Welcome ∧
  (name ∉ usednames (Hybrid.database s) →
   GameJs.addPlayer pt name (Hybrid.database s) = (true, Hybrid.database s')) ∧
  usednames (Hybrid.database s') = usednames (Hybrid.database s) ∪ {[name]} ∧
  obj_get ("player:" +:+ name) (players (Hybrid.database s'))
    = Some (cell_key pt.1 pt.2) ∧
  (name ≠ "__proto__" →
   obj_get name (scores (Hybrid.database s')) = Some 0) ∧
  (name = "__proto__" →
   scores (Hybrid.database s') = scores (Hybrid.database s)) ∧
  coins (Hybrid.database s') = coins (Hybrid.database s) ∧
  (∀ other, other ≠ name →
     obj_get ("player:" +:+ other) (players (Hybrid.database s'))
     = obj_get ("player:" +:+ other) (players (Hybrid.database s)) ∧
     obj_get other (scores (Hybrid.database s'))
     = obj_get other (scores (Hybrid.database s))).
Proof.
  intros Hname. rewrite Hybrid_addPlayer_call, decide_False by done. cbn.
  split_and!; try done.
  - intros Hfresh. unfold GameJs.addPlayer. by rewrite decide_False.
  - apply obj_get_set_eq.
  - intros Hne. by rewrite obj_get_assign, decide_True.
  - by intros ->.
  - intros other Hother. split.
    + apply obj_get_set_ne.
      intros E. by apply (inj (String.app "player:")) in E.
    + rewrite obj_get_assign, decide_False; [done|]. by intros [? _].
Qed.

Lemma addPlayer_registers_witness :
  let s := Hybrid.loaded demo_perm demo_redis in
  let s' := (Hybrid.addPlayer (2, 0) (7, 7) "__proto__" s).2 in
  (Hybrid.addPlayer (2, 0) (7, 7) "__proto__" s).1 = Welcome ∧
  ("__proto__" ∉ usednames (Hybrid.database s) →
   GameJs.addPlayer (2, 0) "__proto__" (Hybrid.database s)
   = (true, Hybrid.database s')) ∧
  usednames (Hybrid.database s')
    = usednames (Hybrid.database s) ∪ {["__proto__"]} ∧
  obj_get ("player:" +:+ "__proto__") (players (Hybrid.database s'))
    = Some (cell_key (2, 0).1 (2, 0).2) ∧
  ("__proto__" ≠ "__proto__" →
   obj_get "__proto__" (scores (Hybrid.database s')) = Some 0) ∧
  ("__proto__" = "__proto__" →
   scores (Hybrid.database s') = scores (Hybrid.database s)) ∧
  coins (Hybrid.database s') = coins (Hybrid.database s) ∧
  (∀ other, other ≠ "__proto__" →
     obj_get ("player:" +:+ other) (players (Hybrid.database s'))
     = obj_get ("player:" +:+ other) (players (Hybrid.database s)) ∧
     obj_get other (scores (Hybrid.database s'))
     = obj_get other (scores (Hybrid.database s))).
Proof.
  apply (addPlayer_registers (2, 0) (7, 7) "__proto__"
           (Hybrid.loaded demo_perm demo_redis)).
  unfold Hybrid.loaded.
  destruct (Hybrid_placeCoins_redis demo_perm
              (Hybrid.mkState empty_database demo_redis)) as (_ & -> & _).
  apply not_elem_of_empty.
Defined.

(** X4: a move that returns changes the position and the score of no
    player but the one it moves, the player named in the call or [alice] in
    [game.js], and leaves the used names as they are, whatever the state. *)
Theorem move_leaves_the_others :
  (∀ perm direction name s s',
     Hybrid.move perm direction name s = Normal s' →
     usednames (Hybrid.database s') = usednames (Hybrid.database s) ∧
     ∀ other, other ≠ name →
       obj_get ("player:" +:+ other) (players (Hybrid.database s'))
       = obj_get ("player:" +:+ other) (players (Hybrid.database s)) ∧
       obj_get other (scores (Hybrid.database s'))
       = obj_get other (scores (Hybrid.database s))) ∧
  (∀ perm direction db db',
     GameJs.move perm direction db = Normal db' →
     usednames db' = usednames db ∧
     ∀ other, other ≠ "alice" →
       obj_get ("player:" +:+ other) (players db')
       = obj_get ("player:" +:+ other) (players db) ∧
       obj_get other (scores db') = obj_get other (scores db)).
Proof.
  assert (∀ perm direction name s s',
     Hybrid.move perm direction name s = Normal s' →
     usednames (Hybrid.database s') = usednames (Hybrid.database s) ∧
     ∀ other, other ≠ name →
       obj_get ("player:" +:+ other) (players (Hybrid.database s'))
       = obj_get ("player:" +:+ other) (players (Hybrid.database s)) ∧
       obj_get other (scores (Hybrid.database s'))
       = obj_get other (scores (Hybrid.database s))) as Hframe.
  { intros perm direction name s s' Hmove.
    destruct (Hybrid_move_frame _ _ _ _ _ Hmove) as (Hu & Hp & Hs).
    split; [done|]. intros other Hother. split; [|by apply Hs].
    apply Hp. intros E. by apply (inj (String.app "player:")) in E. }
  split; [exact Hframe|].
  intros perm direction db db' Hmove.
  apply GameJs_move_Normal in Hmove as (s' & Hm & <-).
  apply (Hframe _ _ _ _ _ Hm).
Qed.

Lemma move_leaves_the_others_witness :
  (usednames (Hybrid.database demo_scored)
   = usednames (Hybrid.database demo_state) ∧
   ∀ other, other ≠ "bob" →
     obj_get ("player:" +:+ other) (players (Hybrid.database demo_scored))
     = obj_get ("player:" +:+ other) (players (Hybrid.database demo_state)) ∧
     obj_get other (scores (Hybrid.database demo_scored))
     = obj_get other (scores (Hybrid.database demo_state))) ∧
  (usednames demo_js_moved = usednames demo_js ∧
   ∀ other, other ≠ "alice" →
     obj_get ("player:" +:+ other) (players demo_js_moved)
     = obj_get ("player:" +:+ other) (players demo_js) ∧
     obj_get other (scores demo_js_moved) = obj_get other (scores demo_js)).
Proof.
  split.
  - exact (proj1 move_leaves_the_others demo_perm "L" "bob" demo_state
             demo_scored demo_scored_move).
  - exact (proj2 move_leaves_the_others demo_perm "L" demo_js demo_js_moved
             demo_js_moved_move).
Defined.

(** X5: a move of a registered player whose name is not [__proto__]
    returns, whatever the direction, and raises the score of that player by
    0, 1, 2, 5 or 10, never lowers it.  A move of a player registered under
    the name [__proto__] leaves all the scores as they are. *)
Theorem move_score_gain :
  (∀ s perm direction name,
     Hybrid.reachable s → name ∈ usednames (Hybrid.database s) →
     name ≠ "__proto__" →
     ∃ score gain s',
       obj_get name (scores (Hybrid.database s)) = Some score ∧
       Hybrid.move perm direction name s = Normal s' ∧
       obj_get name (scores (Hybrid.database s')) = Some (score + gain) ∧
       gain ∈ [0; 1; 2; 5; 10]) ∧
  (∀ s perm direction,
     Hybrid.reachable s → "__proto__" ∈ usednames (Hybrid.database s) →
     ∃ s',
       Hybrid.move perm direction "__proto__" s = Normal s' ∧
       scores (Hybrid.database s') = scores (Hybrid.database s)).
Proof.
  split; [apply Hybrid_move_score|].
  intros s perm direction Hreach Hname.
  destruct (Hybrid_reachable_inv s Hreach) as [[Hp Hc Hne] _].
  destruct (decide (delta_of direction = Undefined)) as [Hd|Hd].
  { exists s. by rewrite Hybrid_move_undefined. }
  destruct (Hybrid_move_registered s perm direction "__proto__")
    as (position & cell & _ & _ & _ & _ & Hm); [done..|].
  eexists. split; [exact Hm|]. rewrite landed_scores.
  destruct (coins (Hybrid.database s) !! cell); [|done].
  unfold credited. by rewrite (inv_proto _ Hp).
Qed.

Lemma move_score_gain_witness :
  (∃ score gain s',
     obj_get "bob" (scores (Hybrid.database demo_state)) = Some score ∧
     Hybrid.move demo_perm "L" "bob" demo_state = Normal s' ∧
     obj_get "bob" (scores (Hybrid.database s')) = Some (score + gain) ∧
     gain ∈ [0; 1; 2; 5; 10]) ∧
  (∃ s',
     Hybrid.move demo_perm "L" "__proto__" demo_proto = Normal s' ∧
     scores (Hybrid.database s') = scores (Hybrid.database demo_proto)).
Proof.
  split.
  - refine (proj1 move_score_gain demo_state demo_perm "L" "bob"
              demo_state_reachable demo_bob_registered _).
    discriminate.
  - exact (proj2 move_score_gain demo_proto demo_perm "L"
             demo_proto_reachable demo_proto_registered).
Defined.



(** X7: in every state the server reaches, the field holds at least one
    coin and at most a hundred. *)
Theorem field_holds_one_to_hundred :
  (∀ s, Hybrid.reachable s →
     (1 ≤ size (coins (Hybrid.database s)) ≤ 100)%nat) ∧
  (∀ db, GameJs.reachable db → (1 ≤ size (coins db) ≤ 100)%nat).
Proof.
  split.
  - intros s Hreach.
    destruct (Hybrid_reachable_inv s Hreach) as [[_ _ Hne] _].
    destruct (Hybrid_reachable_ledger s Hreach) as [_ _ _ Hsize _].
    apply map_size_non_empty_iff in Hne. lia.
  - intros db Hreach.
    destruct (GameJs_reachable_inv db Hreach) as [[_ _ Hne] _].
    destruct (GameJs_reachable_ledger db Hreach) as [_ _ _ Hsize _].
    apply map_size_non_empty_iff in Hne. lia.
Qed.

Lemma field_holds_one_to_hundred_witness :
  (1 ≤ size (coins (Hybrid.database demo_last_coin)) ≤ 100)%nat.
Proof.
  exact (proj1 field_holds_one_to_hundred demo_last_coin demo_last_coin_reachable).
Defined.

Lemma one_entry_per_name db :
  players_inv db → ledger_inv db →
  (players db).*1 ≡ₚ String.app "player:" <$> elements (usednames db) ∧
  (scores db).*1 ≡ₚ elements (usednames db ∖ {["__proto__"]}).
Proof.
  intros [Hp Hs Hproto Hpos] [Hndp Hnds Hused _ _]. split.
  - apply NoDup_Permutation; [done| |].
    + apply (NoDup_fmap_2 _), NoDup_elements.
    + intros key. split.
      * intros ([k position] & -> & Hin)%list_elem_of_fmap.
        pose proof (obj_get_NoDup _ _ _ Hndp Hin) as Hget.
        destruct (Hpos _ _ Hget) as [_ (name & E & Hname)].
        apply list_elem_of_fmap. exists name. split; [done|].
        by apply elem_of_elements.
      * intros (name & -> & Hname%elem_of_elements)%list_elem_of_fmap.
        destruct (Hp name Hname) as [position Hget].
        by eapply obj_get_Some_key.
  - apply NoDup_Permutation; [done|apply NoDup_elements|].
    intros name.
    rewrite elem_of_elements, elem_of_difference, not_elem_of_singleton.
    split.
    + intros Hin. split; [by apply Hused|].
      intros ->. by apply obj_get_None in Hproto.
    + intros [Hname Hne]. destruct (Hs name Hname Hne) as [score Hget].
      by eapply obj_get_Some_key.
Qed.

(** X8: in every state the server reaches, the database holds exactly one
    position for each used name and none for any other name, and exactly
    one score for each used name other than [__proto__], and none for any
    other name. *)
Theorem one_position_and_score_per_name :
  (∀ s, Hybrid.reachable s →
     let db := Hybrid.database s in
     (players db).*1 ≡ₚ String.app "player:" <$> elements (usednames db) ∧
     (scores db).*1 ≡ₚ elements (usednames db ∖ {["__proto__"]}) ∧
     length (players db) = size (usednames db) ∧
     length (scores db) = size (usednames db ∖ {["__proto__"]})) ∧
  (∀ db, GameJs.reachable db →
     (players db).*1 ≡ₚ String.app "player:" <$> elements (usednames db) ∧
     (scores db).*1 ≡ₚ elements (usednames db ∖ {["__proto__"]}) ∧
     length (players db) = size (usednames db) ∧
     length (scores db) = size (usednames db ∖ {["__proto__"]})).
Proof.
  assert (∀ db, players_inv db → ledger_inv db →
     (players db).*1 ≡ₚ String.app "player:" <$> elements (usednames db) ∧
     (scores db).*1 ≡ₚ elements (usednames db ∖ {["__proto__"]}) ∧
     length (players db) = size (usednames db) ∧
     length (scores db) = size (usednames db ∖ {["__proto__"]})) as Hdb.
  { intros db Hinv Hled.
    destruct (one_entry_per_name db Hinv Hled) as [Hp Hs].
    split; [done|]. split; [done|]. split.
    - by rewrite <- (length_fmap fst), Hp, length_fmap.
    - by rewrite <- (length_fmap fst), Hs. }
  split.
  - intros s Hreach. apply Hdb.
    + by destruct (Hybrid_reachable_inv s Hreach) as [[] _].
    + by apply Hybrid_reachable_ledger.
  - intros db Hreach. apply Hdb.
    + by destruct (GameJs_reachable_inv db Hreach) as [[] _].
    + by apply GameJs_reachable_ledger.
Qed.

Lemma one_position_and_score_per_name_witness :
  let db := Hybrid.database demo_proto in
  (players db).*1 ≡ₚ String.app "player:" <$> elements (usednames db) ∧
  (scores db).*1 ≡ₚ elements (usednames db ∖ {["__proto__"]}) ∧
  length (players db) = size (usednames db) ∧
  length (scores db) = size (usednames db ∖ {["__proto__"]}).
Proof.
  exact (proj1 one_position_and_score_per_name demo_proto demo_proto_reachable).
Defined.

(** X9: in every state the second variant reaches, the coin hash of Redis
    is a whole batch of 100 coins and holds every coin of the field of the
    database with its value, and the Redis score of every registered player
    is 0: [move] takes coins off the field and credits scores in the
    database only. *)
Theorem redis_keeps_the_whole_batch s :
  Hybrid.reachable s →
  size (r_coins (Hybrid.redis s)) = 100%nat ∧
  (∀ k v, coins (Hybrid.database s) !! k = Some v →
     r_coins (Hybrid.redis s) !! k = Some v) ∧
  (∀ name, name ∈ usednames (Hybrid.database s) →
     r_scores (Hybrid.redis s) !! name = Some 0).
Proof.
  intros [(perm & Hperm & Hb) Hf Hs]%Hybrid_reachable_mirror.
  split_and!; [|intros k v Hk; by eapply lookup_weaken|done].
  rewrite Hb. unfold batch, NUM_COINS.
  by destruct (forEach_place_fresh perm Hperm) as [-> _].
Qed.

Lemma redis_keeps_the_whole_batch_witness :
  size (r_coins (Hybrid.redis demo_last_coin)) = 100%nat ∧
  (∀ k v, coins (Hybrid.database demo_last_coin) !! k = Some v →
     r_coins (Hybrid.redis demo_last_coin) !! k = Some v) ∧
  (∀ name, name ∈ usednames (Hybrid.database demo_last_coin) →
     r_scores (Hybrid.redis demo_last_coin) !! name = Some 0).
Proof.
  exact (redis_keeps_the_whole_batch demo_last_coin demo_last_coin_reachable).
Defined.

(** X10: a step that stays on the board, followed by the step in the
    opposite direction, brings the player back to the cell it left. *)
Theorem step_and_back s perm perm' direction name delta x y :
  Hybrid.reachable s →
  permutation_spec (Z.to_nat (WIDTH * HEIGHT)) perm →
  name ∈ usednames (Hybrid.database s) →
  delta_of direction = Own delta →
  obj_get ("player:" +:+ name) (players (Hybrid.database s))
    = Some (cell_key x y) →
  0 ≤ x + delta.1 ≤ 63 → 0 ≤ y + delta.2 ≤ 63 →
  ∃ s' s'',
    Hybrid.move perm direction name s = Normal s' ∧
    obj_get ("player:" +:+ name) (players (Hybrid.database s'))
      = Some (cell_key (x + delta.1) (y + delta.2)) ∧
    Hybrid.move perm' (opposite direction) name s' = Normal s'' ∧
    obj_get ("player:" +:+ name) (players (Hybrid.database s''))
      = Some (cell_key x y).
Proof.
  intros Hreach Hperm Hname Hdelta Hpos Hx Hy.
  destruct (Hybrid_move_position s perm direction name delta x y)
    as (Hx0 & Hy0 & s' & Hm & Hpos'); [done..|].
  rewrite !clamp_inside in Hpos' by done.
  assert (Hybrid.reachable s') as Hreach'
    by (by apply (Hybrid.reach_move s perm direction name)).
  assert (name ∈ usednames (Hybrid.database s')) as Hname'
    by (by rewrite (Hybrid_move_usednames _ _ _ _ _ Hm)).
  destruct (Hybrid_move_position s' perm' (opposite direction) name
              (- delta.1, - delta.2) (x + delta.1) (y + delta.2))
    as (_ & _ & s'' & Hm' & Hpos''); [done|done|by apply delta_of_opposite|done|].
  cbn [fst snd] in Hpos''.
  replace (x + delta.1 + - delta.1) with x in Hpos'' by lia.
  replace (y + delta.2 + - delta.2) with y in Hpos'' by lia.
  rewrite !clamp_inside in Hpos'' by done.
  by exists s', s''.
Qed.

Lemma step_and_back_witness :
  ∃ s' s'',
    Hybrid.move demo_perm "L" "bob" demo_state = Normal s' ∧
    obj_get ("player:" +:+ "bob") (players (Hybrid.database s'))
      = Some (cell_key (2 + (-1, 0).1) (0 + (-1, 0).2)) ∧
    Hybrid.move demo_perm (opposite "L") "bob" s' = Normal s'' ∧
    obj_get ("player:" +:+ "bob") (players (Hybrid.database s''))
      = Some (cell_key 2 0).
Proof.
  refine (step_and_back demo_state demo_perm demo_perm "L" "bob" (-1, 0) 2 0
            demo_state_reachable demo_perm_spec _ eq_refl _ _ _).
  - exact demo_bob_registered.
  - vm_compute. reflexivity.
  - cbn. lia.
  - cbn. lia.
Defined.

(** X11: a player who has just registered can move: the first move in a
    valid direction returns and takes the player from the point drawn one
    step along the direction, or leaves that coordinate at the wall; unless
    the name is [__proto__], it makes the score 0, 1, 2, 5 or 10. *)
Theorem addPlayer_then_move s pt pt' perm direction name delta :
  Hybrid.reachable s →
  name ∉ r_usednames (Hybrid.redis s) →
  randomPoint_spec WIDTH HEIGHT pt → randomPoint_spec WIDTH HEIGHT pt' →
  delta_of direction = Own delta →
  ∃ s'',
    Hybrid.move perm direction name (Hybrid.addPlayer pt pt' name s).2
      = Normal s'' ∧
    obj_get ("player:" +:+ name) (players (Hybrid.database s''))
      = Some (cell_key (clamp (pt.1 + delta.1) 0 63)
                       (clamp (pt.2 + delta.2) 0 63)) ∧
    (name ≠ "__proto__" →
     ∃ gain, obj_get name (scores (Hybrid.database s'')) = Some gain ∧
             gain ∈ [0; 1; 2; 5; 10]).
Proof.
  intros Hreach Hname Hpt Hpt' Hdelta.
  set (s1 := (Hybrid.addPlayer pt pt' name s).2).
  assert (Hybrid.reachable s1) as Hreach1
    by (by apply Hybrid.reach_addPlayer).
  destruct (Hybrid_addPlayer_fresh pt pt' name s Hname) as [_ Hin].
  assert (obj_get ("player:" +:+ name) (players (Hybrid.database s1))
          = Some (cell_key pt.1 pt.2) ∧
          (name ≠ "__proto__" →
           obj_get name (scores (Hybrid.database s1)) = Some 0))
    as [Hpos Hscore].
  { unfold s1. rewrite Hybrid_addPlayer_call, decide_False by done. cbn.
    split; [apply obj_get_set_eq|].
    intros Hne. by rewrite obj_get_assign, decide_True. }
  destruct (Hybrid_move_position s1 perm direction name delta pt.1 pt.2)
    as (_ & _ & s'' & Hm & Hpos''); [done..|].
  exists s''. split; [done|]. split; [done|]. intros Hne.
  destruct (Hybrid_move_score s1 perm direction name)
    as (score & gain & s2 & Hscore1 & Hm2 & Hscore2 & Hgain); [done..|].
  rewrite Hm in Hm2. injection Hm2 as <-.
  rewrite (Hscore Hne) in Hscore1. injection Hscore1 as <-.
  by exists gain.
Qed.

Lemma addPlayer_then_move_witness :
  ∃ s'',
    Hybrid.move demo_perm "U" "carol"
      (Hybrid.addPlayer (0, 0) (5, 5) "carol" demo_state).2 = Normal s'' ∧
    obj_get ("player:" +:+ "carol") (players (Hybrid.database s''))
      = Some (cell_key (clamp ((0, 0).1 + (0, -1).1) 0 63)
                       (clamp ((0, 0).2 + (0, -1).2) 0 63)) ∧
    ("carol" ≠ "__proto__" →
     ∃ gain, obj_get "carol" (scores (Hybrid.database s'')) = Some gain ∧
             gain ∈ [0; 1; 2; 5; 10]).
Proof.
  refine (addPlayer_then_move demo_state (0, 0) (5, 5) demo_perm "U" "carol"
            (0, -1) demo_state_reachable _ _ _ eq_refl).
  - apply (bool_decide_unpack _). vm_compute. exact I.
  - by vm_compute.
  - by vm_compute.
Defined.

Lemma entries_elem_of {V : Type} (o : obj V) p : p ∈ entries o ↔ p ∈ o.
Proof.
  unfold entries. rewrite elem_of_app, merge_sort_Permutation.
  rewrite !list_elem_of_filter.
  destruct (decide (is_Some (array_index p.1))); tauto.
Qed.

(** X12: with fewer than 64 players, the size the sort is modelled for,
    [state] returns; it shows the coin field as it is, each used name once
    among the positions, with the stored position of that player, and among
    the scores each name with its score. *)
Theorem state_shows_the_game s :
  Hybrid.reachable s →
  (length (scores (Hybrid.database s)) < 64)%nat →
  ∃ view,
    Hybrid.state s = Normal view ∧
    GameJs.state (Hybrid.database s) = Normal view ∧
    v_coins view = coins (Hybrid.database s) ∧
    NoDup (v_positions view).*1 ∧
    (∀ name position,
       (name, position) ∈ v_positions view ↔
       name ∈ usednames (Hybrid.database s) ∧
       obj_get ("player:" +:+ name) (players (Hybrid.database s))
         = Some position) ∧
    (∀ name score,
       (name, score) ∈ v_scores view ↔
       obj_get name (scores (Hybrid.database s)) = Some score).
Proof.
  intros Hreach Hlen.
  destruct (Hybrid_state_shows s Hreach Hlen)
    as (view & Hstate & Hcoins & Hscores & Hpositions).
  destruct (Hybrid_reachable_ledger s Hreach) as [Hndp Hnds _ _ _].
  exists view. split_and!; [done|done|done| | |].
  - rewrite Hpositions, <- list_fmap_compose.
    apply (NoDup_fmap_2_strong _); [|by apply NoDup_fmap_1 in Hndp].
    intros [k1 p1] [k2 p2] H1 H2. cbn [fst snd compose]. intros E.
    destruct (reachable_player_keys s k1 p1 Hreach H1) as (n1 & -> & _ & Hg1).
    destruct (reachable_player_keys s k2 p2 Hreach H2) as (n2 & -> & _ & Hg2).
    rewrite !substring_from_player in E. subst n2. congruence.
  - intros name position. rewrite Hpositions, list_elem_of_fmap. split.
    + intros ([key p] & Heq & Hin).
      destruct (reachable_player_keys s key p Hreach Hin)
        as (n & -> & Hn & Hget).
      cbn [fst snd] in Heq. rewrite substring_from_player in Heq.
      by injection Heq as -> ->.
    + intros [Hname Hget]. exists ("player:" +:+ name, position).
      cbn [fst snd]. rewrite substring_from_player. split; [done|].
      by apply obj_get_elem_of.
  - intros name score. rewrite Hscores, entries_elem_of. split.
    + by apply obj_get_NoDup.
    + apply obj_get_elem_of.
Qed.

Lemma state_shows_the_game_witness :
  ∃ view,
    Hybrid.state demo_scored = Normal view ∧
    GameJs.state (Hybrid.database demo_scored) = Normal view ∧
    v_coins view = coins (Hybrid.database demo_scored) ∧
    NoDup (v_positions view).*1 ∧
    (∀ name position,
       (name, position) ∈ v_positions view ↔
       name ∈ usednames (Hybrid.database demo_scored) ∧
       obj_get ("player:" +:+ name) (players (Hybrid.database demo_scored))
         = Some position) ∧
    (∀ name score,
       (name, score) ∈ v_scores view ↔
       obj_get name (scores (Hybrid.database demo_scored)) = Some score).
Proof.
  refine (state_shows_the_game demo_scored demo_scored_reachable _).
  apply (bool_decide_unpack _). vm_compute. exact I.
Defined.

(** X13: [placeCoins] of [game.js] and of the database of the second
    variant does not clear the field: the hundred cells drawn get the coin
    of their rank, every other coin stays where it is, and players and
    scores are left alone.  The Redis hash is deleted first, so it holds the
    new batch alone, in the second variant and in the variant on Redis
    alone. *)
Theorem placeCoins_overwrites_and_keeps perm db r :
  permutation_spec (Z.to_nat (WIDTH * HEIGHT)) perm →
  let db' := GameJs.placeCoins perm db in
  let s' := Hybrid.placeCoins perm (Hybrid.mkState db r) in
  (∀ j position, (j < 100)%nat → perm !! j = Some position →
     coins db' !! coin_index position = Some (coinValue j)) ∧
  (∀ key, key ∉ coin_index <$> take 100 perm →
     coins db' !! key = coins db !! key) ∧
  (∀ key, is_Some (coins db !! key) → is_Some (coins db' !! key)) ∧
  (scores db' = scores db ∧ players db' = players db ∧
   usednames db' = usednames db) ∧
  Hybrid.database s' = db' ∧
  r_coins (Hybrid.redis s') = batch perm ∧
  r_coins (RedisOnly.placeCoins perm r) = batch perm ∧
  fresh_batch perm (batch perm).
Proof.
  intros Hperm db' s'.
  destruct (take_permutation perm 100 Hperm) as (Hlen & Hnd & _); [lia|].
  assert (∀ j position, (j < 100)%nat → perm !! j = Some position →
            coins db' !! coin_index position = Some (coinValue j)) as Hnew.
  { intros j position Hj Hlook. unfold db'.
    rewrite GameJs_placeCoins_coins.
    rewrite (forEach_place_lookup _ _ _ j position Hnd); [done|].
    by rewrite lookup_take_lt. }
  assert (∀ key, key ∉ coin_index <$> take 100 perm →
            coins db' !! key = coins db !! key) as Hold.
  { intros key Hkey. unfold db'. rewrite GameJs_placeCoins_coins.
    by apply forEach_place_lookup_other. }
  split; [done|]. split; [done|]. split.
  { intros key Hsome.
    destruct (decide (key ∈ coin_index <$> take 100 perm)) as [Hin|Hout].
    - apply list_elem_of_fmap in Hin as (position & -> & Hin).
      apply list_elem_of_lookup in Hin as [j Hj].
      pose proof (lookup_lt_Some _ _ _ Hj) as Hlt. rewrite Hlen in Hlt.
      rewrite lookup_take_lt in Hj by done. erewrite Hnew; done.
    - by rewrite Hold. }
  split; [done|]. split; [apply Hybrid_placeCoins_database|]. subst s'.
  split; [by destruct (Hybrid_placeCoins_redis perm (Hybrid.mkState db r))
             as (-> & _)|].
  split; [by destruct (RedisOnly_placeCoins_fields perm r) as (-> & _)|].
  by apply forEach_place_fresh.
Qed.

Lemma placeCoins_overwrites_and_keeps_witness :
  let db := Hybrid.database demo_state in
  let db' := GameJs.placeCoins (rev demo_perm) db in
  let s' := Hybrid.placeCoins (rev demo_perm) (Hybrid.mkState db demo_redis) in
  (∀ j position, (j < 100)%nat → rev demo_perm !! j = Some position →
     coins db' !! coin_index position = Some (coinValue j)) ∧
  (∀ key, key ∉ coin_index <$> take 100 (rev demo_perm) →
     coins db' !! key = coins db !! key) ∧
  (∀ key, is_Some (coins db !! key) → is_Some (coins db' !! key)) ∧
  (scores db' = scores db ∧ players db' = players db ∧
   usednames db' = usednames db) ∧
  Hybrid.database s' = db' ∧
  r_coins (Hybrid.redis s') = batch (rev demo_perm) ∧
  r_coins (RedisOnly.placeCoins (rev demo_perm) demo_redis)
    = batch (rev demo_perm) ∧
  fresh_batch (rev demo_perm) (batch (rev demo_perm)).
Proof.
  refine (placeCoins_overwrites_and_keeps (rev demo_perm)
            (Hybrid.database demo_state) demo_redis _).
  exact (Permutation_sym (Permutation_rev demo_perm)).
Defined.

Lemma landed_players name cell perm s :
  let s1 := landed name cell s in
  players (Hybrid.database
    (if (size (coins (Hybrid.database s1)) =? 0)%nat
     then Hybrid.placeCoins perm s1 else s1))
  = obj_set ("player:" +:+ name) cell (players (Hybrid.database s)).
Proof.
  cbn zeta. by destruct (size _ =? 0)%nat; [rewrite Hybrid_placeCoins_database|].
Qed.

(** What a move in a valid direction does, for a database that satisfies
    the invariants and a registered player who stands on a cell and has a
    score. *)
Lemma Hybrid_move_collects s perm direction name delta x y :
  db_inv (Hybrid.database s) →
  name ∈ usednames (Hybrid.database s) → name ≠ "__proto__" →
  delta_of direction = Own delta →
  obj_get ("player:" +:+ name) (players (Hybrid.database s))
    = Some (cell_key x y) →
  ∃ score s',
    let db := Hybrid.database s in
    let db' := Hybrid.database s' in
    let newX := clamp (x + delta.1) 0 63 in
    let newY := clamp (y + delta.2) 0 63 in
    let cell := cell_key newX newY in
    obj_get name (scores db) = Some score ∧
    Hybrid.move perm direction name s = Normal s' ∧
    0 ≤ newX ≤ 63 ∧ 0 ≤ newY ≤ 63 ∧
    players db' = obj_set ("player:" +:+ name) cell (players db) ∧
    match coins db !! cell with
    | Some value =>
        scores db' = obj_set name (score + value) (scores db) ∧
        coins db' =
          if decide (delete cell (coins db) = ∅) then batch perm
          else delete cell (coins db)
    | None => scores db' = scores db ∧ coins db' = coins db
    end.
Proof.
  intros Hinv Hname Hproto Hdelta Hpos.
  destruct (Hybrid_move_step s perm direction name delta x y)
    as (_ & _ & Hm); [done..|].
  destruct Hinv as [Hp Hc Hne].
  destruct (inv_score _ Hp name Hname Hproto) as [score Hscore].
  cbn zeta in Hm. set (cell := cell_key _ _) in Hm.
  exists score. eexists. cbn zeta. fold cell.
  split; [done|]. split; [exact Hm|].
  split; [apply clamp_bounds; lia|]. split; [apply clamp_bounds; lia|].
  split; [apply landed_players|].
  rewrite landed_scores, landed_coins.
  destruct (coins (Hybrid.database s) !! cell) as [value|] eqn:Hcoin.
  - unfold credited. by rewrite Hscore.
  - split; [done|]. rewrite delete_id by done. by rewrite decide_False.
Qed.

(** X16: for a registered player whose name is not [__proto__], who stands
    on a cell, and a valid direction, [move] returns; it takes the stored
    position, adds the delta of the direction and clamps each axis into
    [0, 63]; a coin on that cell is removed (only that one) and its value
    is added to the score of that player (only that one); the stored
    position becomes that cell, coin or no coin.  When the removal empties
    the field, the field is the new batch.  [move] of [game.js] does this
    to [alice]. *)
Theorem move_collects_and_relocates :
  (∀ s perm direction name delta x y,
     Hybrid.reachable s →
     name ∈ usednames (Hybrid.database s) → name ≠ "__proto__" →
     delta_of direction = Own delta →
     obj_get ("player:" +:+ name) (players (Hybrid.database s))
       = Some (cell_key x y) →
     ∃ score s',
       let db := Hybrid.database s in
       let db' := Hybrid.database s' in
       let newX := clamp (x + delta.1) 0 63 in
       let newY := clamp (y + delta.2) 0 63 in
       let cell := cell_key newX newY in
       obj_get name (scores db) = Some score ∧
       Hybrid.move perm direction name s = Normal s' ∧
       0 ≤ newX ≤ 63 ∧ 0 ≤ newY ≤ 63 ∧
       players db' = obj_set ("player:" +:+ name) cell (players db) ∧
       match coins db !! cell with
       | Some value =>
           scores db' = obj_set name (score + value) (scores db) ∧
           coins db' =
             if decide (delete cell (coins db) = ∅) then batch perm
             else delete cell (coins db)
       | None => scores db' = scores db ∧ coins db' = coins db
       end) ∧
  (∀ db perm direction delta x y,
     GameJs.reachable db →
     delta_of direction = Own delta →
     obj_get "player:alice" (players db) = Some (cell_key x y) →
     ∃ score db',
       let newX := clamp (x + delta.1) 0 63 in
       let newY := clamp (y + delta.2) 0 63 in
       let cell := cell_key newX newY in
       obj_get "alice" (scores db) = Some score ∧
       GameJs.move perm direction db = Normal db' ∧
       0 ≤ newX ≤ 63 ∧ 0 ≤ newY ≤ 63 ∧
       players db' = obj_set "player:alice" cell (players db) ∧
       match coins db !! cell with
       | Some value =>
           scores db' = obj_set "alice" (score + value) (scores db) ∧
           coins db' =
             if decide (delete cell (coins db) = ∅) then batch perm
             else delete cell (coins db)
       | None => scores db' = scores db ∧ coins db' = coins db
       end).
Proof.
  split.
  - intros s perm direction name delta x y Hreach Hname Hproto Hdelta Hpos.
    destruct (Hybrid_reachable_inv s Hreach) as [Hinv _].
    by apply Hybrid_move_collects.
  - intros db perm direction delta x y Hreach Hdelta Hpos.
    destruct (GameJs_reachable_inv db Hreach) as [Hinv Halice].
    destruct (Hybrid_move_collects (Hybrid.mkState db (mkRedis ∅ ∅ ∅ ∅))
                perm direction "alice" delta x y)
      as (score & s' & Hscore & Hm & Hrest); [done..|].
    exists score, (Hybrid.database s'). cbn zeta. split; [done|]. split.
    + by rewrite (GameJs_move_alice perm direction db (mkRedis ∅ ∅ ∅ ∅)), Hm.
    + exact Hrest.
Qed.

Lemma move_collects_and_relocates_witness :
  ∃ score s',
    let db := Hybrid.database demo_state in
    let db' := Hybrid.database s' in
    let newX := clamp (2 + (-1, 0).1) 0 63 in
    let newY := clamp (0 + (-1, 0).2) 0 63 in
    let cell := cell_key newX newY in
    obj_get "bob" (scores db) = Some score ∧
    Hybrid.move demo_perm "L" "bob" demo_state = Normal s' ∧
    0 ≤ newX ≤ 63 ∧ 0 ≤ newY ≤ 63 ∧
    players db' = obj_set ("player:" +:+ "bob") cell (players db) ∧
    match coins db !! cell with
    | Some value =>
        scores db' = obj_set "bob" (score + value) (scores db) ∧
        coins db' =
          if decide (delete cell (coins db) = ∅) then batch demo_perm
          else delete cell (coins db)
    | None => scores db' = scores db ∧ coins db' = coins db
    end.
Proof.
  refine (proj1 move_collects_and_relocates demo_state demo_perm "L" "bob"
            (-1, 0) 2 0 demo_state_reachable demo_bob_registered _ eq_refl _).
  - discriminate.
  - vm_compute. reflexivity.
Defined.

Lemma wall_law v (d : Z) :
  d ∈ [-1; 0; 1] → 0 ≤ v ≤ 63 →
  if decide (0 ≤ v + d ≤ 63) then clamp (v + d) 0 63 = v + d
  else clamp (v + d) 0 63 = v.
Proof.
  intros Hd Hv. case_decide; [by apply clamp_inside|].
  unfold clamp.
  repeat (apply elem_of_cons in Hd as [->|Hd]);
    [..|by apply elem_of_nil in Hd]; repeat case_match; lia.
Qed.

Lemma delta_of_axes direction delta :
  delta_of direction = Own delta → delta.1 ∈ [-1; 0; 1] ∧ delta.2 ∈ [-1; 0; 1].
Proof.
  intros Hd%delta_of_cases.
  repeat (apply elem_of_cons in Hd as [->|Hd]); [..|by apply elem_of_nil in Hd];
    cbn; set_solver.
Qed.

(** The step of a player who stands on a cell, in a valid direction. *)
Lemma Hybrid_move_clamped s perm direction name delta x y :
  db_inv (Hybrid.database s) → name ∈ usednames (Hybrid.database s) →
  delta_of direction = Own delta →
  obj_get ("player:" +:+ name) (players (Hybrid.database s))
    = Some (cell_key x y) →
  ∃ x' y' s',
    0 ≤ x ≤ 63 ∧ 0 ≤ y ≤ 63 ∧
    Hybrid.move perm direction name s = Normal s' ∧
    obj_get ("player:" +:+ name) (players (Hybrid.database s'))
      = Some (cell_key x' y') ∧
    0 ≤ x' ≤ 63 ∧ 0 ≤ y' ≤ 63 ∧
    (if decide (0 ≤ x + delta.1 ≤ 63) then x' = x + delta.1 else x' = x) ∧
    (if decide (0 ≤ y + delta.2 ≤ 63) then y' = y + delta.2 else y' = y).
Proof.
  intros Hinv Hname Hdelta Hpos.
  destruct (Hybrid_move_step s perm direction name delta x y)
    as (Hx & Hy & Hm); [done..|].
  destruct (delta_of_axes direction delta Hdelta) as [H1 H2].
  exists (clamp (x + delta.1) 0 63), (clamp (y + delta.2) 0 63).
  eexists. split; [done|]. split; [done|]. split; [exact Hm|].
  split; [apply landed_position|].
  split; [apply clamp_bounds; lia|]. split; [apply clamp_bounds; lia|].
  split; by apply wall_law.
Qed.

(** A move in a direction that names no member of [Object.prototype]
    leaves on the board the positions that were on it. *)
Lemma Hybrid_move_on_board s perm direction name s' :
  db_inv (Hybrid.database s) → name ∈ usednames (Hybrid.database s) →
  positions_on_board (Hybrid.database s) →
  delta_of direction ≠ Inherited →
  Hybrid.move perm direction name s = Normal s' →
  positions_on_board (Hybrid.database s').
Proof.
  intros Hinv Hname Hboard Hd Hmove.
  destruct (delta_of direction) as [delta| |] eqn:Hdelta; [|done|].
  - destruct (inv_player _ (inv_players _ Hinv) name Hname)
      as [position Hposition].
    destruct (Hboard _ _ Hposition) as (x & y & -> & _).
    destruct (Hybrid_move_step s perm direction name delta x y)
      as (_ & _ & Hm); [done..|].
    cbn zeta in Hm. set (cell := cell_key _ _) in Hm.
    assert (players (Hybrid.database s')
            = obj_set ("player:" +:+ name) cell (players (Hybrid.database s)))
      as Hplayers.
    { rewrite Hm in Hmove. injection Hmove as <-.
      exact (landed_players name cell perm s). }
    intros key position. rewrite Hplayers, obj_get_set.
    case_decide; [|apply Hboard].
    intros [= <-]. exact (clamped_on_board x y delta).
  - rewrite Hybrid_move_undefined in Hmove by done. by injection Hmove as <-.
Qed.

Lemma registered_on_board pt name db :
  randomPoint_spec WIDTH HEIGHT pt →
  positions_on_board db → positions_on_board (registered pt name db).
Proof.
  intros Hpt Hboard key position. cbn. rewrite obj_get_set.
  case_decide; [|apply Hboard]. intros [= <-]. by apply randomPoint_on_board.
Qed.

(** X17: a move in a valid direction of a registered player who stands on
    a cell of the board returns and leaves the player on a cell of the
    board: one step along the axis of the direction, or the same
    coordinate when the step would leave the board.  So the stored
    positions that are all on the board stay on the board under
    [addPlayer], and under [move] in any direction that names no member of
    [Object.prototype]: a valid direction, or a string the table of
    directions does not know, which changes nothing.  This holds of both
    variants. *)
Theorem valid_moves_stay_on_board :
  (∀ s perm direction name delta x y,
     Hybrid.reachable s → name ∈ usednames (Hybrid.database s) →
     delta_of direction = Own delta →
     obj_get ("player:" +:+ name) (players (Hybrid.database s))
       = Some (cell_key x y) →
     ∃ x' y' s',
       0 ≤ x ≤ 63 ∧ 0 ≤ y ≤ 63 ∧
       Hybrid.move perm direction name s = Normal s' ∧
       obj_get ("player:" +:+ name) (players (Hybrid.database s'))
         = Some (cell_key x' y') ∧
       0 ≤ x' ≤ 63 ∧ 0 ≤ y' ≤ 63 ∧
       (if decide (0 ≤ x + delta.1 ≤ 63) then x' = x + delta.1 else x' = x) ∧
       (if decide (0 ≤ y + delta.2 ≤ 63) then y' = y + delta.2 else y' = y)) ∧
  (∀ db perm direction delta x y,
     GameJs.reachable db →
     delta_of direction = Own delta →
     obj_get "player:alice" (players db) = Some (cell_key x y) →
     ∃ x' y' db',
       0 ≤ x ≤ 63 ∧ 0 ≤ y ≤ 63 ∧
       GameJs.move perm direction db = Normal db' ∧
       obj_get "player:alice" (players db') = Some (cell_key x' y') ∧
       0 ≤ x' ≤ 63 ∧ 0 ≤ y' ≤ 63 ∧
       (if decide (0 ≤ x + delta.1 ≤ 63) then x' = x + delta.1 else x' = x) ∧
       (if decide (0 ≤ y + delta.2 ≤ 63) then y' = y + delta.2 else y' = y)) ∧
  (∀ s, Hybrid.reachable s → positions_on_board (Hybrid.database s) →
     (∀ pt pt' name, randomPoint_spec WIDTH HEIGHT pt →
        positions_on_board (Hybrid.database (Hybrid.addPlayer pt pt' name s).2)) ∧
     (∀ perm direction name s',
        name ∈ usednames (Hybrid.database s) →
        delta_of direction ≠ Inherited →
        Hybrid.move perm direction name s = Normal s' →
        positions_on_board (Hybrid.database s'))) ∧
  (∀ db, GameJs.reachable db → positions_on_board db →
     (∀ pt name, randomPoint_spec WIDTH HEIGHT pt →
        positions_on_board (GameJs.addPlayer pt name db).2) ∧
     (∀ perm direction db',
        delta_of direction ≠ Inherited →
        GameJs.move perm direction db = Normal db' →
        positions_on_board db')) ∧
  (∀ perm r, positions_on_board (Hybrid.database (Hybrid.loaded perm r))) ∧
  (∀ perm pa pb,
     randomPoint_spec WIDTH HEIGHT pa → randomPoint_spec WIDTH HEIGHT pb →
     positions_on_board (GameJs.loaded perm pa pb)).
Proof.
  split_and!.
  - intros s perm direction name delta x y Hreach Hname Hdelta Hpos.
    destruct (Hybrid_reachable_inv s Hreach) as [Hinv _].
    by apply (Hybrid_move_clamped s perm direction name delta x y).
  - intros db perm direction delta x y Hreach Hdelta Hpos.
    destruct (GameJs_reachable_inv db Hreach) as [Hinv Halice].
    destruct (Hybrid_move_clamped (Hybrid.mkState db (mkRedis ∅ ∅ ∅ ∅))
                perm direction "alice" delta x y)
      as (x' & y' & s' & Hx & Hy & Hm & Hrest); [done..|].
    exists x', y', (Hybrid.database s'). split; [done|]. split; [done|].
    split; [|exact Hrest].
    by rewrite (GameJs_move_alice perm direction db (mkRedis ∅ ∅ ∅ ∅)), Hm.
  - intros s Hreach Hboard. destruct (Hybrid_reachable_inv s Hreach) as [Hinv _].
    split.
    + intros pt pt' name Hpt. rewrite Hybrid_addPlayer_call.
      case_decide; [done|]. by apply registered_on_board.
    + intros perm direction name s' Hname Hd Hmove.
      by apply (Hybrid_move_on_board s perm direction name s').
  - intros db Hreach Hboard.
    destruct (GameJs_reachable_inv db Hreach) as [Hinv Halice]. split.
    + intros pt name Hpt. rewrite GameJs_addPlayer_registered.
      case_decide; [done|]. by apply registered_on_board.
    + intros perm direction db' Hd Hmove.
      apply GameJs_move_Normal in Hmove as (s' & Hm & <-).
      by apply (Hybrid_move_on_board _ perm direction "alice" s') in Hm.
  - intros perm r key position. unfold Hybrid.loaded.
    by rewrite Hybrid_placeCoins_database.
  - intros perm pa pb Hpa Hpb. unfold GameJs.loaded.
    rewrite !GameJs_addPlayer_registered.
    repeat case_decide; cbn [snd]; repeat apply registered_on_board; done.
Qed.

Lemma valid_moves_stay_on_board_witness :
  (∃ x' y' s',
     0 ≤ 2 ≤ 63 ∧ 0 ≤ 0 ≤ 63 ∧
     Hybrid.move demo_perm "U" "bob" demo_state = Normal s' ∧
     obj_get ("player:" +:+ "bob") (players (Hybrid.database s'))
       = Some (cell_key x' y') ∧
     0 ≤ x' ≤ 63 ∧ 0 ≤ y' ≤ 63 ∧
     (if decide (0 ≤ 2 + (0, -1).1 ≤ 63) then x' = 2 + (0, -1).1 else x' = 2) ∧
     (if decide (0 ≤ 0 + (0, -1).2 ≤ 63) then y' = 0 + (0, -1).2 else y' = 0)) ∧
  (∃ x' y' db',
     0 ≤ 10 ≤ 63 ∧ 0 ≤ 10 ≤ 63 ∧
     GameJs.move demo_perm "L" demo_js = Normal db' ∧
     obj_get "player:alice" (players db') = Some (cell_key x' y') ∧
     0 ≤ x' ≤ 63 ∧ 0 ≤ y' ≤ 63 ∧
     (if decide (0 ≤ 10 + (-1, 0).1 ≤ 63) then x' = 10 + (-1, 0).1
      else x' = 10) ∧
     (if decide (0 ≤ 10 + (-1, 0).2 ≤ 63) then y' = 10 + (-1, 0).2
      else y' = 10)).
Proof.
  split.
  - refine (proj1 valid_moves_stay_on_board demo_state demo_perm "U" "bob"
              (0, -1) 2 0 demo_state_reachable demo_bob_registered eq_refl _).
    vm_compute. reflexivity.
  - refine (proj1 (proj2 valid_moves_stay_on_board) demo_js demo_perm "L"
              (-1, 0) 10 10 _ eq_refl _).
    + apply GameJs.reach_loaded; [exact demo_perm_spec|by vm_compute..].
    + vm_compute. reflexivity.
Defined.

(** X18: a move of a registered player in a direction that names a member
    of [Object.prototype], such as [constructor] or [toString], returns:
    the stored position of the player becomes the string [NaN,NaN], which
    is the key of no cell, and scores, coins and used names are as before.
    From then on every move of that player that returns leaves the
    position as it is: the player does not come back to the board. *)
Theorem inherited_direction_stores_NaN s perm direction name :
  Hybrid.reachable s →
  permutation_spec (Z.to_nat (WIDTH * HEIGHT)) perm →
  name ∈ usednames (Hybrid.database s) →
  direction ∈ Object_prototype →
  ∃ s',
    Hybrid.move perm direction name s = Normal s' ∧
    obj_get ("player:" +:+ name) (players (Hybrid.database s'))
      = Some "NaN,NaN" ∧
    ¬ on_board "NaN,NaN" ∧
    scores (Hybrid.database s') = scores (Hybrid.database s) ∧
    coins (Hybrid.database s') = coins (Hybrid.database s) ∧
    usednames (Hybrid.database s') = usednames (Hybrid.database s) ∧
    ∀ perm' direction' s'',
      Hybrid.move perm' direction' name s' = Normal s'' →
      obj_get ("player:" +:+ name) (players (Hybrid.database s''))
        = Some "NaN,NaN".
Proof.
  intros Hreach Hperm Hname Hdir%delta_of_inherited.
  destruct (Hybrid_reachable_inv s Hreach) as [Hinv _].
  destruct (inv_player _ (inv_players _ Hinv) name Hname)
    as [position Hposition].
  pose proof (Hybrid_move_NaN s perm direction name position Hinv Hname)
    as Hm.
  rewrite Hdir in Hm. specialize (Hm ltac:(done) Hposition ltac:(by left)).
  eexists. split; [exact Hm|]. cbn [Hybrid.database players scores coins usednames].
  split; [apply obj_get_set_eq|]. split; [exact on_board_not_NaN|].
  split; [done|]. split; [done|]. split; [done|].
  intros perm' direction' s'' Hmove.
  match type of Hm with _ = Normal ?t => set (s' := t) in * end.
  assert (Hybrid.reachable s') as Hreach'.
  { by apply (Hybrid.reach_move s perm direction name). }
  destruct (Hybrid_reachable_inv s' Hreach') as [Hinv' _].
  assert (obj_get ("player:" +:+ name) (players (Hybrid.database s'))
          = Some "NaN,NaN") as Hpos' by apply obj_get_set_eq.
  destruct (decide (delta_of direction' = Undefined)) as [Hd|Hd].
  - rewrite Hybrid_move_undefined in Hmove by done. by injection Hmove as <-.
  - rewrite (Hybrid_move_NaN s' perm' direction' name "NaN,NaN") in Hmove;
      [|done|done|done|done|by right].
    injection Hmove as <-. apply obj_get_set_eq.
Qed.

Lemma inherited_direction_stores_NaN_witness :
  ∃ s',
    Hybrid.move demo_perm "toString" "bob" demo_state = Normal s' ∧
    obj_get ("player:" +:+ "bob") (players (Hybrid.database s'))
      = Some "NaN,NaN" ∧
    ¬ on_board "NaN,NaN" ∧
    scores (Hybrid.database s') = scores (Hybrid.database demo_state) ∧
    coins (Hybrid.database s') = coins (Hybrid.database demo_state) ∧
    usednames (Hybrid.database s') = usednames (Hybrid.database demo_state) ∧
    ∀ perm' direction' s'',
      Hybrid.move perm' direction' "bob" s' = Normal s'' →
      obj_get ("player:" +:+ "bob") (players (Hybrid.database s''))
        = Some "NaN,NaN".
Proof.
  refine (inherited_direction_stores_NaN demo_state demo_perm "toString" "bob"
            demo_state_reachable demo_perm_spec demo_bob_registered _).
  apply (bool_decide_unpack _). vm_compute. exact I.
Defined.
